(** * HaproxyLogFile: the log-file engine of haproxy_log_analysis

    A shallow embedding of [src/haproxy/haproxy_logfile.py] and the
    properties of its ingestion loop and of its analytics commands.

    Conventions of the embedding:
    - Python integers are [Z]; a [datetime] is the [Z] number of
      microseconds it denotes, a [timedelta] is a (possibly negative) [Z],
      so [start + delta] is [Z.add] and the comparisons are those of [Z].
    - A Python list is a [list]; [l.append(x)] is [l ++ [x]].
    - [None] is [None]: an attribute that may hold [None] is an [option].
    - A [dict] iterated by the code is an association list in iteration
      order (insertion order, as [dict] and [defaultdict] iterate).
    - A [for] loop is [fold_left] of its body over the iterated list, the
      local variables being the fields of a state record. *)

From Stdlib Require Import ZArith List Bool Lia String Ascii.
From Stdlib Require Import Sorted Permutation.
Import ListNotations.

Open Scope Z_scope.

(** ** The log line

    [HaproxyLogLine] is the object built by [haproxy.haproxy_logline];
    these are the attributes that [haproxy_logfile.py] reads. *)

Record HaproxyLogLine : Type := mkLine {
  valid : bool;
  accept_date : Z;
  http_request_method : string;
  http_request_path : string;
  status_code : Z;
  time_wait_response : Z;
  server_name : string;
  queue_backend : Z;
  captured_request_headers : option string
}.

(** ** Python built-ins used by the module *)

Section Sorted_builtin.
Context {A : Type}.
Variable key : A -> Z.
Variable reverse : bool.

(** [before x y]: [x] may stand before [y] in the result. *)
Definition before (x y : A) : bool :=
  if reverse then key y <=? key x else key x <=? key y.

Fixpoint insert_sorted (x : A) (l : list A) : list A :=
  match l with
  | [] => [x]
  | y :: l' => if before x y then x :: l else y :: insert_sorted x l'
  end.

(** [sorted(l, key=key, reverse=reverse)]: a stable sort; elements with
    equal keys keep their original order, also under [reverse=True]. *)
Fixpoint sorted (l : list A) : list A :=
  match l with
  | [] => []
  | x :: l' => insert_sorted x (sorted l')
  end.
End Sorted_builtin.

(** [s[1:-1]] on a string. *)
Definition slice_1_m1 (s : string) : string :=
  string_of_list_ascii (removelast (tl (list_ascii_of_string s))).

(** ** cmd_queue_peaks *)

Record peak_info : Type := mkPeak {
  peak : Z;
  span : Z;
  first : option Z;
  last : Z
}.

Record qp_state : Type := mkQp {
  peaks : list peak_info;
  current_peak : Z;
  queue : Z;
  current_span : Z;
  first_on_queue : option Z;
  line : option HaproxyLogLine
}.

Definition qp_threshold : Z := 1.

Definition qp_init : qp_state := mkQp [] 0 0 0 None None.

(** The body of the [for line in self._valid_lines] loop. *)
Definition qp_step (st : qp_state) (ln : HaproxyLogLine) : qp_state :=
  let queue := queue_backend ln in
  let current_span :=
    if 0 <? queue then current_span st + 1 else current_span st in
  let first_on_queue :=
    match first_on_queue st with
    | None => if 0 <? queue then Some (accept_date ln) else None
    | Some d => Some d
    end in
  let emit := (queue =? 0) && (qp_threshold <? current_peak st) in
  let peaks :=
    if emit
    then peaks st ++ [mkPeak (current_peak st) current_span
                             first_on_queue (accept_date ln)]
    else peaks st in
  let current_peak := if emit then 0 else current_peak st in
  let current_span := if emit then 0 else current_span in
  let first_on_queue := if emit then None else first_on_queue in
  let current_peak := if current_peak <? queue then queue else current_peak in
  mkQp peaks current_peak queue current_span first_on_queue (Some ln).

Definition qp_loop (valid_lines : list HaproxyLogLine) : qp_state :=
  fold_left qp_step valid_lines qp_init.

(** The code after the loop: the case of a series that does not end.  The
    loop variable [line] is bound whenever [queue > 0]. *)
Definition qp_finish (st : qp_state) : list peak_info :=
  if (0 <? queue st) && (qp_threshold <? current_peak st)
  then match line st with
       | Some ln => peaks st ++ [mkPeak (current_peak st) (current_span st)
                                        (first_on_queue st) (accept_date ln)]
       | None => peaks st
       end
  else peaks st.

Definition cmd_queue_peaks (valid_lines : list HaproxyLogLine)
  : list peak_info :=
  qp_finish (qp_loop valid_lines).

(** ** cmd_ip_counter

    [ip_counter] is a [defaultdict(int)]: an association list in insertion
    order.  [dict_incr k d] is [d[k] += 1]. *)

Definition ips_dict_t : Type := list (string * Z).

Fixpoint dict_incr (k : string) (d : ips_dict_t) : ips_dict_t :=
  match d with
  | [] => [(k, 0 + 1)]
  | (k', v) :: d' =>
      if String.eqb k' k then (k', v + 1) :: d' else (k', v) :: dict_incr k d'
  end.

Definition ip_counter_step (ip_counter : ips_dict_t) (ln : HaproxyLogLine)
  : ips_dict_t :=
  match captured_request_headers ln with
  | Some headers =>
      let stripped_brackets := slice_1_m1 headers in
      dict_incr stripped_brackets ip_counter
  | None => ip_counter
  end.

Definition cmd_ip_counter (valid_lines : list HaproxyLogLine) : ips_dict_t :=
  fold_left ip_counter_step valid_lines [].

(** ** cmd_top_ips *)

Record ip_info : Type := mkIp {
  ip : string;
  repetitions : Z
}.

Record ti_state : Type := mkTi {
  ips_list : list ip_info;
  min_repetitions : Z;
  min_ip : option string
}.

Definition ti_threshold : Z := 10.

Definition ti_init : ti_state := mkTi [] 99999 None.

(** [ip_info['ip'] == min_ip]: a string never equals [None]. *)
Definition ip_is (s : string) (m : option string) : bool :=
  match m with
  | Some k => String.eqb s k
  | None => false
  end.

(** The inner [for position, ip_info in enumerate(ips_list)] loop: the
    first entry whose ip is [min_ip] is overwritten, then [break]. *)
Fixpoint replace_min (m : option string) (current_ip : ip_info)
  (l : list ip_info) : list ip_info :=
  match l with
  | [] => []
  | info :: l' =>
      if ip_is (ip info) m then current_ip :: l'
      else info :: replace_min m current_ip l'
  end.

(** [{'ip': ip, 'repetitions': repetitions}] for an item of [ips_dict]. *)
Definition ip_info_of (entry : string * Z) : ip_info :=
  mkIp (fst entry) (snd entry).

(** The body of the [for ip in ips_dict] loop. *)
Definition ti_step (st : ti_state) (entry : string * Z) : ti_state :=
  let '(ip_, repetitions_) := entry in
  let current_ip := mkIp ip_ repetitions_ in
  if Z.of_nat (List.length (ips_list st)) <? ti_threshold
  then
    let ips_list_ := ips_list st ++ [current_ip] in
    if repetitions_ <? min_repetitions st
    then mkTi ips_list_ repetitions_ (Some ip_)
    else mkTi ips_list_ (min_repetitions st) (min_ip st)
  else
    if min_repetitions st <? repetitions_
    then mkTi (replace_min (min_ip st) current_ip (ips_list st))
              (min_repetitions st) (min_ip st)
    else st.

Definition ti_loop (ips_dict : ips_dict_t) : ti_state :=
  fold_left ti_step ips_dict ti_init.

(** [cmd_top_ips] from the histogram on: the loop, then the final
    [sorted(ips_list, key=repetitions, reverse=True)]. *)
Definition top_ips_of (ips_dict : ips_dict_t) : list ip_info :=
  sorted repetitions true (ips_list (ti_loop ips_dict)).

Definition cmd_top_ips (valid_lines : list HaproxyLogLine) : list ip_info :=
  let ips_dict := cmd_ip_counter valid_lines in
  top_ips_of ips_dict.

(** ** cmd_slow_requests *)

Definition slow_step (slow_requests : list Z) (ln : HaproxyLogLine) : list Z :=
  let response_time := time_wait_response ln in
  if 1000 <? response_time then slow_requests ++ [response_time]
  else slow_requests.

Definition cmd_slow_requests (valid_lines : list HaproxyLogLine) : list Z :=
  fold_left slow_step valid_lines [].

(** ** The HaproxyLogFile object *)

Record HaproxyLogFile : Type := mkFile {
  logfile : option string;
  start_time : option Z;
  delta : option Z;
  end_time : option Z;
  total_lines : Z;
  _valid_lines : list HaproxyLogLine;
  _invalid_lines : list string
}.

(** [__init__(self, logfile=None, start=None, delta=None)] *)
Definition __init__ (logfile : option string) (start delta : option Z)
  : HaproxyLogFile :=
  let end_time :=
    match start, delta with
    | Some s, Some d => Some (s + d)
    | _, _ => None
    end in
  mkFile logfile start delta end_time 0 [] [].

Definition _is_in_time_range (self : HaproxyLogFile) (log_line : HaproxyLogLine)
  : bool :=
  match start_time self with
  | None => true
  | Some start =>
      if accept_date log_line <? start then false
      else match end_time self with
           | None => true
           | Some e => if e <? accept_date log_line then false else true
           end
  end.

Definition _sort_lines (self : HaproxyLogFile) : HaproxyLogFile :=
  mkFile (logfile self) (start_time self) (delta self) (end_time self)
         (total_lines self)
         (sorted accept_date false (_valid_lines self))
         (_invalid_lines self).

Definition cmd_counter (self : HaproxyLogFile) : Z :=
  Z.of_nat (List.length (_valid_lines self)).

Definition cmd_counter_invalid (self : HaproxyLogFile) : Z :=
  Z.of_nat (List.length (_invalid_lines self)).

Inductive exception : Type :=
| ValueError (msg : string).

Section Ingestion.
(** What [parse_file] takes from outside the module: the constructor of
    [haproxy.haproxy_logline.HaproxyLogLine], [str.strip], and the file
    layer: [open_lines path] is the sequence of lines that iterating over
    [open(path)] yields.  Opening and reading the file belong to the file
    layer and are not modelled as failing. *)
Variable parse_line : string -> HaproxyLogLine.
Variable strip : string -> string.
Variable open_lines : string -> list string.

(** The body of the [for line in logfile] loop. *)
Definition parse_step (self : HaproxyLogFile) (ln : string) : HaproxyLogFile :=
  let total_lines := total_lines self + 1 in
  let stripped_line := strip ln in
  let parsed_line := parse_line stripped_line in
  if negb (valid parsed_line)
  then mkFile (logfile self) (start_time self) (delta self) (end_time self)
              total_lines (_valid_lines self)
              (_invalid_lines self ++ [stripped_line])
  else if _is_in_time_range self parsed_line
  then mkFile (logfile self) (start_time self) (delta self) (end_time self)
              total_lines (_valid_lines self ++ [parsed_line])
              (_invalid_lines self)
  else mkFile (logfile self) (start_time self) (delta self) (end_time self)
              total_lines (_valid_lines self) (_invalid_lines self).

Definition parse_loop (self : HaproxyLogFile) (lines : list string)
  : HaproxyLogFile :=
  fold_left parse_step lines self.

(** [parse_file]: the object after the call, and the exception when one
    is raised. *)
Definition parse_file (self : HaproxyLogFile)
  : HaproxyLogFile * option exception :=
  match logfile self with
  | None => (self, Some (ValueError "No log file is configured yet!"))
  | Some path => (_sort_lines (parse_loop self (open_lines path)), None)
  end.

(** What one pass over [lines] retains: the valid entries inside the time
    window, and the stripped text of the lines that failed to parse, both
    in file order. *)
Definition in_window_entries (self : HaproxyLogFile) (lines : list string)
  : list HaproxyLogLine :=
  filter (fun p => valid p && _is_in_time_range self p)
         (map (fun ln => parse_line (strip ln)) lines).

Definition rejected_lines (lines : list string) : list string :=
  filter (fun s => negb (valid (parse_line s))) (map strip lines).
End Ingestion.

(** ** Runs of queued entries

    The vocabulary in which the records of [cmd_queue_peaks] are described:
    a run is a block of consecutive entries none of which has
    [queue_backend == 0], starting at the beginning of the log or right
    after an entry with [queue_backend == 0]. *)

Definition nonzero_run (run : list HaproxyLogLine) : Prop :=
  Forall (fun l => queue_backend l <> 0) run.

Definition starts_run (pre : list HaproxyLogLine) : Prop :=
  pre = [] \/ exists pre' z, pre = pre' ++ [z] /\ queue_backend z = 0.

(** [p] is the largest queue depth of [run]. *)
Definition has_peak (run : list HaproxyLogLine) (p : Z) : Prop :=
  Forall (fun l => queue_backend l <= p) run /\
  Exists (fun l => queue_backend l = p) run.

(** The run of [r] is followed by [z], the first entry after it with
    [queue_backend == 0]; [r] is appended to [peaks] while [z] is
    processed, and [r.last] is the accept date of [z]. *)
Definition closed_inside (ls : list HaproxyLogLine) (r : peak_info) : Prop :=
  exists pre run z post,
    ls = pre ++ run ++ z :: post /\
    starts_run pre /\ nonzero_run run /\ has_peak run (peak r) /\
    queue_backend z = 0 /\
    peaks (qp_loop ((pre ++ run) ++ [z]))
    = peaks (qp_loop (pre ++ run)) ++ [r] /\
    last r = accept_date z.

(** The run of [r] reaches the end of the input, whose final entry [ln] is
    still queued; [r] is appended after the loop, and [r.last] is the
    accept date of [ln]. *)
Definition closed_at_end (ls : list HaproxyLogLine) (r : peak_info) : Prop :=
  exists pre run ln,
    ls = pre ++ run ++ [ln] /\
    starts_run pre /\ nonzero_run (run ++ [ln]) /\
    has_peak (run ++ [ln]) (peak r) /\
    0 < queue_backend ln /\
    cmd_queue_peaks ls = peaks (qp_loop ls) ++ [r] /\
    last r = accept_date ln.

(** The invariant of the loop of [cmd_queue_peaks] after the entries [ls]. *)
Definition qp_inv (ls : list HaproxyLogLine) (st : qp_state) : Prop :=
  0 <= current_peak st /\
  (forall r, In r (peaks st) -> qp_threshold < peak r /\ closed_inside ls r) /\
  match line st with
  | Some ln => (exists ls', ls = ls' ++ [ln]) /\ queue st = queue_backend ln
  | None => ls = [] /\ queue st = 0
  end /\
  exists pre run,
    ls = pre ++ run /\ starts_run pre /\ nonzero_run run /\
    Forall (fun l => queue_backend l <= current_peak st) run /\
    (qp_threshold < current_peak st ->
     Exists (fun l => queue_backend l = current_peak st) run).

(** ** Sample data

    Entries and logs on which the statements below are instantiated. *)

(** A valid entry accepted at [date] with [queue] requests queued. *)
Definition entry (date queue_ : Z) : HaproxyLogLine :=
  mkLine true date "GET" "/" 200 0 "srv1" queue_ None.

(** A chronological log with the given queue depths. *)
Definition log_of_queues (queues : list Z) : list HaproxyLogLine :=
  map (fun '(d, q) => entry (Z.of_nat d) q)
      (combine (seq 0 (List.length queues)) queues).

(** A valid entry accepted at [date] that waited [wait] milliseconds. *)
Definition slow_entry (date wait : Z) : HaproxyLogLine :=
  mkLine true date "GET" "/" 200 wait "srv1" 0 None.

(** A valid entry accepted at [date] whose only captured header is the
    client address [client]. *)
Definition entry_from (client : string) (date : Z) : HaproxyLogLine :=
  mkLine true date "GET" "/" 200 0 "srv1" 0
         (Some ("{" ++ client ++ "}")%string).

(** A stand-in for the line parser: the line ["bad"] is malformed, any
    other line is a valid entry accepted at the time given by its length. *)
Definition toy_parse (s : string) : HaproxyLogLine :=
  if String.eqb s "bad"
  then mkLine false 0 EmptyString EmptyString 0 0 EmptyString 0 None
  else entry (Z.of_nat (String.length s)) 0.

Definition toy_strip (s : string) : string := s.

Definition toy_open (path : string) : list string :=
  ["ccc"; "bad"; "a"; "bb"]%string.

(** Fresh objects on the toy file: without a window, and with a window
    that starts at time 2. *)
Definition toy_file : HaproxyLogFile :=
  __init__ (Some "haproxy.log"%string) None None.

Definition toy_file_from_2 : HaproxyLogFile :=
  __init__ (Some "haproxy.log"%string) (Some 2) None.

Definition toy_parse_file (self : HaproxyLogFile)
  : HaproxyLogFile * option exception :=
  parse_file toy_parse toy_strip toy_open self.

(** Eleven clients with pairwise distinct request counts, the last one
    having the smallest. *)
Definition hist_small : ips_dict_t :=
  [("A", 50); ("B", 45); ("C", 40); ("D", 35); ("E", 30); ("F", 25);
   ("G", 20); ("H", 15); ("I", 10); ("J", 8); ("K", 5)]%string.

(** Eleven busy clients, none with fewer than 99999 requests; the last one
    has the largest count and the first one the smallest. *)
Definition hist_busy : ips_dict_t :=
  [("A", 100000); ("B", 100001); ("C", 100002); ("D", 100003);
   ("E", 100004); ("F", 100005); ("G", 100006); ("H", 100007);
   ("I", 100008); ("J", 100009); ("K", 200000)]%string.

(** A chronological log of fifteen requests: ten clients seen once, then
    client ["k"] twice and client ["l"] three times. *)
Definition log_stale_minimum : list HaproxyLogLine :=
  [entry_from "a" 0; entry_from "b" 1; entry_from "c" 2; entry_from "d" 3;
   entry_from "e" 4; entry_from "f" 5; entry_from "g" 6; entry_from "h" 7;
   entry_from "i" 8; entry_from "j" 9;
   entry_from "k" 10; entry_from "k" 11;
   entry_from "l" 12; entry_from "l" 13; entry_from "l" 14].

(** ** The histogram commands

    [defaultdict(int)] over any key type: [ddict_incr k d] is [d[k] += 1]
    and [ddict_get k d] is what reading the returned mapping at [k] gives,
    [None] for a key that was never counted. *)

Section Defaultdict.
Context {K : Type}.
Variable eqb : K -> K -> bool.

Fixpoint ddict_incr (k : K) (d : list (K * Z)) : list (K * Z) :=
  match d with
  | [] => [(k, 0 + 1)]
  | (k', v) :: d' =>
      if eqb k' k then (k', v + 1) :: d' else (k', v) :: ddict_incr k d'
  end.

Fixpoint ddict_get (k : K) (d : list (K * Z)) : option Z :=
  match d with
  | [] => None
  | (k', v) :: d' => if eqb k' k then Some v else ddict_get k d'
  end.
End Defaultdict.

Definition cmd_http_methods (valid_lines : list HaproxyLogLine)
  : list (string * Z) :=
  fold_left (fun methods ln => ddict_incr String.eqb (http_request_method ln) methods)
            valid_lines [].

Definition cmd_status_codes_counter (valid_lines : list HaproxyLogLine)
  : list (Z * Z) :=
  fold_left (fun status_codes ln => ddict_incr Z.eqb (status_code ln) status_codes)
            valid_lines [].

Definition cmd_request_path_counter (valid_lines : list HaproxyLogLine)
  : list (string * Z) :=
  fold_left (fun paths ln => ddict_incr String.eqb (http_request_path ln) paths)
            valid_lines [].

Definition cmd_server_load (valid_lines : list HaproxyLogLine)
  : list (string * Z) :=
  fold_left (fun servers ln => ddict_incr String.eqb (server_name ln) servers)
            valid_lines [].

(** The shape shared by the five counting loops: [key x] is the key under
    which [x] is counted, [None] when [x] is skipped. *)
Definition histogram_of {A K : Type} (eqb : K -> K -> bool)
  (key : A -> option K) (xs : list A) : list (K * Z) :=
  fold_left (fun d x => match key x with
                        | Some k => ddict_incr eqb k d
                        | None => d
                        end) xs [].

(** How many of [xs] are counted under [k]. *)
Definition occurrences {A K : Type} (eqb : K -> K -> bool)
  (key : A -> option K) (k : K) (xs : list A) : Z :=
  Z.of_nat (List.length
              (filter (fun x => match key x with
                                | Some k' => eqb k' k
                                | None => false
                                end) xs)).

(** The sum of the counts of a histogram. *)
Definition total_count {K : Type} (d : list (K * Z)) : Z :=
  fold_right Z.add 0 (map snd d).

(** ** Measures on the result of cmd_queue_peaks *)

(** The sum of the [span] fields of a list of records. *)
Definition span_total (ps : list peak_info) : Z :=
  fold_right Z.add 0 (map span ps).

(** The number of entries with [queue_backend > 0]. *)
Definition queued_entries (ls : list HaproxyLogLine) : Z :=
  Z.of_nat (List.length (filter (fun l => 0 <? queue_backend l) ls)).

(** [r.first] is the accept date of a queued entry [l] that stands at or
    before the entry [z] whose accept date is [r.last]. *)
Definition first_before_last (ls : list HaproxyLogLine) (r : peak_info)
  : Prop :=
  exists pre z post l,
    ls = pre ++ z :: post /\ In l (pre ++ [z]) /\ 0 < queue_backend l /\
    first r = Some (accept_date l) /\ last r = accept_date z.

(** A log whose entries are in chronological order. *)
Definition chronological (ls : list HaproxyLogLine) : Prop :=
  StronglySorted (fun a b => accept_date a <= accept_date b) ls.

(** ** commands

    [commands] lists the class attributes whose name starts with [cmd_],
    without that prefix.  [dir_cls] is what [dir(cls)] returns. *)

(** [s[n:]] on a string. *)
Fixpoint slice_from (n : nat) (s : string) : string :=
  match n, s with
  | O, _ => s
  | S n', String _ s' => slice_from n' s'
  | S _, EmptyString => EmptyString
  end.

Definition commands (dir_cls : list string) : list string :=
  map (fun cmd => slice_from 4 cmd)
      (filter (fun cmd => String.prefix "cmd_" cmd) dir_cls).

(** The names that [dir] finds in the class body, in the alphabetical
    order in which [dir] lists them. *)
Definition class_attributes : list string :=
  ["__init__"; "_is_in_time_range"; "_sort_lines"; "cmd_counter";
   "cmd_counter_invalid"; "cmd_http_methods"; "cmd_ip_counter";
   "cmd_queue_peaks"; "cmd_request_path_counter"; "cmd_server_load";
   "cmd_slow_requests"; "cmd_status_codes_counter"; "cmd_top_ips";
   "commands"; "parse_file"]%string.

(** * Properties *)

(** ** cmd_queue_peaks on given queue-depth sequences *)

(** C1: over valid entries whose queue depths are [0,2,3,0,0,5,0],
    [cmd_queue_peaks] returns exactly two records: peak 3 with span 2
    for the run [2,3], then peak 5 with span 1 for the run [5]; over
    entries with depths [0,1,0] it returns the empty list. *)
Theorem queue_peaks_two_runs :
  forall l0 l1 l2 l3 l4 l5 l6 : HaproxyLogLine,
    map queue_backend [l0; l1; l2; l3; l4; l5; l6] = [0; 2; 3; 0; 0; 5; 0] ->
    cmd_queue_peaks [l0; l1; l2; l3; l4; l5; l6]
    = [ mkPeak 3 2 (Some (accept_date l1)) (accept_date l3);
        mkPeak 5 1 (Some (accept_date l5)) (accept_date l6) ]
    /\ forall a b c : HaproxyLogLine,
         map queue_backend [a; b; c] = [0; 1; 0] ->
         cmd_queue_peaks [a; b; c] = [].
Proof.
  intros l0 l1 l2 l3 l4 l5 l6 H. split.
  - destruct l0, l1, l2, l3, l4, l5, l6. simpl in H.
    injection H as -> -> -> -> -> -> ->. reflexivity.
  - intros a b c Habc. destruct a, b, c. simpl in Habc.
    injection Habc as -> -> ->. reflexivity.
Qed.

Lemma queue_peaks_two_runs_witness :
  cmd_queue_peaks (log_of_queues [0; 2; 3; 0; 0; 5; 0])
  = [mkPeak 3 2 (Some 1) 3; mkPeak 5 1 (Some 5) 6]
  /\ cmd_queue_peaks (log_of_queues [0; 1; 0]) = [].
Proof.
  destruct (queue_peaks_two_runs
              (entry 0 0) (entry 1 2) (entry 2 3) (entry 3 0)
              (entry 4 0) (entry 5 5) (entry 6 0) eq_refl) as [H2 H0].
  split.
  - exact H2.
  - exact (H0 (entry 0 0) (entry 1 1) (entry 2 0) eq_refl).
Defined.

(** C10: over valid entries whose queue depths are [0,1,0,2,0],
    [cmd_queue_peaks] returns exactly one record; its span is 2, the
    entry of the discarded run [1] being counted, and its [first] field is
    the accept date of the entry with queue depth 1, so it is not that of
    the entry with queue depth 2 when the two dates differ. *)
Theorem queue_peaks_leaks_discarded_run :
  forall l0 l1 l2 l3 l4 : HaproxyLogLine,
    map queue_backend [l0; l1; l2; l3; l4] = [0; 1; 0; 2; 0] ->
    cmd_queue_peaks [l0; l1; l2; l3; l4]
    = [ mkPeak 2 2 (Some (accept_date l1)) (accept_date l4) ]
    /\ (accept_date l1 <> accept_date l3 ->
        forall r, In r (cmd_queue_peaks [l0; l1; l2; l3; l4]) ->
                  first r <> Some (accept_date l3)).
Proof.
  intros l0 l1 l2 l3 l4 H.
  assert (E : cmd_queue_peaks [l0; l1; l2; l3; l4]
              = [ mkPeak 2 2 (Some (accept_date l1)) (accept_date l4) ]).
  { destruct l0, l1, l2, l3, l4. simpl in H.
    injection H as -> -> -> -> ->. reflexivity. }
  split; [exact E|].
  intros Hne r Hr. rewrite E in Hr. destruct Hr as [<- | []].
  cbn [first]. congruence.
Qed.

Lemma queue_peaks_leaks_discarded_run_witness :
  cmd_queue_peaks (log_of_queues [0; 1; 0; 2; 0]) = [mkPeak 2 2 (Some 1) 4]
  /\ forall r, In r (cmd_queue_peaks (log_of_queues [0; 1; 0; 2; 0])) ->
               first r <> Some 3.
Proof.
  destruct (queue_peaks_leaks_discarded_run
              (entry 0 0) (entry 1 1) (entry 2 0) (entry 3 2) (entry 4 0)
              eq_refl) as [H1 H2].
  split.
  - exact H1.
  - apply H2. discriminate.
Defined.

(** ** cmd_queue_peaks: which entry closes a run *)

Lemma closed_inside_snoc ls x r :
  closed_inside ls r -> closed_inside (ls ++ [x]) r.
Proof.
  intros (pre & run & z & post & -> & Hp & Hn & Hk & Hz & He & Hl).
  exists pre, run, z, (post ++ [x]).
  split; [now rewrite <- !app_assoc, <- app_comm_cons|].
  now repeat (split; [assumption|]).
Qed.

Lemma qp_loop_snoc ls x : qp_loop (ls ++ [x]) = qp_step (qp_loop ls) x.
Proof. unfold qp_loop. now rewrite fold_left_app. Qed.

(** An entry that is not queued and finds a peak above the threshold
    appends one record. *)
Lemma qp_step_emits st x :
  queue_backend x = 0 -> qp_threshold < current_peak st ->
  peaks (qp_step st x)
  = peaks st ++ [mkPeak (current_peak st) (current_span st)
                        (first_on_queue st) (accept_date x)].
Proof.
  intros Hq Hgt. unfold qp_step. rewrite Hq. cbn [peaks].
  apply Z.ltb_lt in Hgt. rewrite Hgt. cbn [Z.eqb andb].
  rewrite Z.ltb_irrefl. now destruct (first_on_queue st).
Qed.

Lemma qp_inv_init : qp_inv [] qp_init.
Proof.
  unfold qp_inv, qp_init; simpl.
  split; [lia|]. split; [intros r []|]. split; [now split|].
  exists [], []. split; [reflexivity|]. split; [now left|].
  split; [constructor|]. split; [constructor|].
  unfold qp_threshold. lia.
Qed.

Lemma qp_inv_step ls x :
  qp_inv ls (qp_loop ls) -> qp_inv (ls ++ [x]) (qp_loop (ls ++ [x])).
Proof.
  intros (Hpos & Hpk & _ & pre & run & Hls & Hpre & Hnz & Hle & Hex).
  rewrite qp_loop_snoc. set (st := qp_loop ls) in *.
  assert (Hold : forall r, In r (peaks st) ->
                 qp_threshold < peak r /\ closed_inside (ls ++ [x]) r).
  { intros r Hr. destruct (Hpk r Hr). split; [assumption|].
    now apply closed_inside_snoc. }
  assert (Hline : (exists ls', ls ++ [x] = ls' ++ [x])
                  /\ queue_backend x = queue_backend x).
  { split; [now exists ls | reflexivity]. }
  unfold qp_inv.
  destruct (Z.eq_dec (queue_backend x) 0) as [Hq | Hq].
  - (* an entry that is not queued: the open run, if any, ends here *)
    assert (Hrestart :
      exists pre0 run0 : list HaproxyLogLine,
        ls ++ [x] = pre0 ++ run0 /\ starts_run pre0 /\ nonzero_run run0
        /\ run0 = []).
    { exists (ls ++ [x]), []. split; [now rewrite app_nil_r|].
      split; [right; now exists ls, x|]. split; [constructor | reflexivity]. }
    destruct Hrestart as (pre0 & run0 & E0 & Hpre0 & Hnz0 & ->).
    destruct (Z.lt_ge_cases qp_threshold (current_peak st)) as [Hgt | Hngt].
    + rewrite (qp_step_emits st x Hq Hgt).
      assert (Hcp : current_peak (qp_step st x) = 0).
      { unfold qp_step. rewrite Hq. cbn [current_peak].
        apply Z.ltb_lt in Hgt. rewrite Hgt. now cbn. }
      rewrite Hcp. split; [lia|]. split.
      * intros r [Hr | [<- | []]]%in_app_or; [now apply Hold|].
        cbn [peak]. split; [exact Hgt|].
        exists pre, run, x, []. cbn [peak last].
        split; [now rewrite Hls, <- app_assoc|].
        split; [assumption|]. split; [assumption|].
        split; [split; [assumption | now apply Hex]|].
        split; [assumption|]. split; [|reflexivity].
        rewrite <- Hls, qp_loop_snoc. fold st.
        now apply qp_step_emits.
      * split; [exact Hline|].
        exists pre0, []. split; [assumption|]. split; [assumption|].
        split; [constructor|]. split; [constructor|].
        unfold qp_threshold. lia.
    + assert (Hcp : current_peak (qp_step st x) = current_peak st
                    /\ peaks (qp_step st x) = peaks st).
      { unfold qp_step. rewrite Hq. cbn [current_peak peaks].
        destruct (Z.ltb_spec qp_threshold (current_peak st)); [lia|].
        cbn [Z.eqb andb]. split; [|reflexivity].
        destruct (Z.ltb_spec (current_peak st) 0); lia. }
      destruct Hcp as [-> ->]. split; [assumption|].
      split; [exact Hold|]. split; [exact Hline|].
      exists pre0, []. split; [assumption|]. split; [assumption|].
      split; [constructor|]. split; [constructor|]. lia.
  - (* a queued entry extends the open run *)
    assert (Hstep : peaks (qp_step st x) = peaks st
                    /\ current_peak (qp_step st x)
                       = Z.max (current_peak st) (queue_backend x)).
    { unfold qp_step. cbn [peaks current_peak].
      destruct (Z.eqb_spec (queue_backend x) 0); [contradiction|].
      cbn [andb]. split; [reflexivity|].
      destruct (Z.ltb_spec (current_peak st) (queue_backend x)); lia. }
    destruct Hstep as [-> ->].
    split; [lia|]. split; [exact Hold|]. split; [exact Hline|].
    exists pre, (run ++ [x]). split; [now rewrite Hls, <- app_assoc|].
    split; [assumption|]. split; [|split].
    + apply Forall_app. split; [assumption|]. now constructor.
    + apply Forall_app. split.
      * eapply Forall_impl; [|exact Hle]. simpl. intros; lia.
      * constructor; [lia | constructor].
    + intros Hgt. apply Exists_app.
      destruct (Z.max_spec (current_peak st) (queue_backend x))
        as [[Hlt ->] | [Hge ->]].
      * right. now constructor.
      * left. apply Hex. lia.
Qed.

Lemma qp_loop_inv ls : qp_inv ls (qp_loop ls).
Proof.
  induction ls as [| x ls IH] using rev_ind.
  - apply qp_inv_init.
  - now apply qp_inv_step.
Qed.

(** C2: every record [r] returned by [cmd_queue_peaks] has a peak above
    the threshold and belongs to a run of the input whose largest queue
    depth is [r.peak]; [r.last] is the accept date of the entry that closed
    the run: the first entry with [queue_backend == 0] after the run, the
    one at which [r] is emitted, or, when the input ends inside the run
    (the final entry has [queue_backend > 0]), the final entry processed. *)
Theorem queue_peaks_last_closes_run :
  forall (ls : list HaproxyLogLine) (r : peak_info),
    In r (cmd_queue_peaks ls) ->
    qp_threshold < peak r /\ (closed_inside ls r \/ closed_at_end ls r).
Proof.
  intros ls r Hin. unfold cmd_queue_peaks, qp_finish in Hin.
  destruct (qp_loop_inv ls)
    as (Hpos & Hpk & Hline & pre & run & Hls & Hpre & Hnz & Hle & Hex).
  set (st := qp_loop ls) in *.
  destruct (Z.ltb_spec 0 (queue st)) as [Hq | Hq];
    destruct (Z.ltb_spec qp_threshold (current_peak st)) as [Hgt | Hngt];
    cbn [andb] in Hin;
    try (destruct (Hpk r Hin); split; [assumption | now left]).
  destruct (line st) as [ln |] eqn:Eln.
  - apply in_app_or in Hin. destruct Hin as [Hin | [<- | []]].
    + destruct (Hpk r Hin); split; [assumption | now left].
    + cbn [peak last]. split; [assumption|]. right.
      destruct Hline as [[ls' Hls'] Hqueue].
      specialize (Hex Hgt).
      destruct (exists_last (l := run)) as (run' & l & Hrun).
      { intros ->. inversion Hex. }
      assert (l = ln) as ->.
      { rewrite Hrun, app_assoc in Hls. rewrite Hls in Hls'.
        now apply app_inj_tail in Hls'. }
      exists pre, run', ln. rewrite <- Hrun.
      split; [assumption|]. split; [assumption|]. split; [assumption|].
      split; [now split|]. split; [lia|]. split; [|reflexivity].
      unfold cmd_queue_peaks, qp_finish. fold st. rewrite Eln.
      apply Z.ltb_lt in Hq, Hgt. now rewrite Hq, Hgt.
  - destruct (Hpk r Hin); split; [assumption | now left].
Qed.

Lemma queue_peaks_last_closes_run_witness :
  In (mkPeak 5 1 (Some 5) 5) (cmd_queue_peaks (log_of_queues [0; 2; 3; 0; 0; 5]))
  /\ qp_threshold < 5
  /\ (closed_inside (log_of_queues [0; 2; 3; 0; 0; 5]) (mkPeak 5 1 (Some 5) 5)
      \/ closed_at_end (log_of_queues [0; 2; 3; 0; 0; 5]) (mkPeak 5 1 (Some 5) 5)).
Proof.
  split.
  - vm_compute. right. left. reflexivity.
  - apply (queue_peaks_last_closes_run
             (log_of_queues [0; 2; 3; 0; 0; 5]) (mkPeak 5 1 (Some 5) 5)).
    vm_compute. right. left. reflexivity.
Defined.

(** ** cmd_slow_requests *)

Lemma slow_loop_filter ls acc :
  fold_left slow_step ls acc
  = acc ++ filter (fun t => 1000 <? t) (map time_wait_response ls).
Proof.
  revert acc. induction ls as [| l ls IH]; intros acc; simpl.
  - now rewrite app_nil_r.
  - rewrite IH. unfold slow_step.
    destruct (1000 <? time_wait_response l); [|reflexivity].
    now rewrite <- app_assoc.
Qed.

Lemma slow_requests_app ls1 ls2 :
  cmd_slow_requests (ls1 ++ ls2) = cmd_slow_requests ls1 ++ cmd_slow_requests ls2.
Proof.
  unfold cmd_slow_requests.
  now rewrite !slow_loop_filter, map_app, filter_app.
Qed.

(** C8: [cmd_slow_requests] returns the [time_wait_response] values that
    are strictly greater than 1000, in the order of the valid entries; an
    entry with value 1000 contributes nothing and an entry with value 1001
    contributes 1001 at its own position. *)
Theorem slow_requests_above_1000 :
  forall ls : list HaproxyLogLine,
    cmd_slow_requests ls
    = filter (fun t => 1000 <? t) (map time_wait_response ls)
    /\ forall pre l post,
         ls = pre ++ l :: post ->
         (time_wait_response l = 1000 ->
          cmd_slow_requests ls = cmd_slow_requests pre ++ cmd_slow_requests post)
         /\ (time_wait_response l = 1001 ->
             cmd_slow_requests ls
             = cmd_slow_requests pre ++ 1001 :: cmd_slow_requests post).
Proof.
  intros ls. split.
  - unfold cmd_slow_requests. now rewrite slow_loop_filter.
  - intros pre l post ->.
    change (l :: post) with ([l] ++ post). rewrite !slow_requests_app.
    split; intros Hl; unfold cmd_slow_requests at 2; simpl;
      unfold slow_step; rewrite Hl; reflexivity.
Qed.

Lemma slow_requests_above_1000_witness :
  cmd_slow_requests [slow_entry 0 1000; slow_entry 1 1001]
  = cmd_slow_requests [] ++ cmd_slow_requests [slow_entry 1 1001]
  /\ cmd_slow_requests [slow_entry 0 1000; slow_entry 1 1001]
     = cmd_slow_requests [slow_entry 0 1000] ++ 1001 :: cmd_slow_requests [].
Proof.
  destruct (slow_requests_above_1000 [slow_entry 0 1000; slow_entry 1 1001])
    as [_ H].
  split.
  - exact (proj1 (H [] (slow_entry 0 1000) [slow_entry 1 1001] eq_refl) eq_refl).
  - exact (proj2 (H [slow_entry 0 1000] (slow_entry 1 1001) [] eq_refl) eq_refl).
Defined.

(** ** _is_in_time_range *)

Lemma in_time_range_iff self l :
  _is_in_time_range self l = true <->
  match start_time self with
  | None => True
  | Some s =>
      s <= accept_date l /\
      match end_time self with
      | None => True
      | Some e => accept_date l <= e
      end
  end.
Proof.
  unfold _is_in_time_range.
  destruct (start_time self) as [s |]; [|tauto].
  destruct (Z.ltb_spec (accept_date l) s).
  - split; [discriminate | lia].
  - destruct (end_time self) as [e |]; [|tauto].
    destruct (Z.ltb_spec e (accept_date l)).
    + split; [discriminate | lia].
    + tauto.
Qed.

(** C6 fails as stated: with a negative [delta] the end of the window lies
    before its start, and neither an entry accepted exactly at
    [start_time] nor one accepted exactly at [end_time] is in range. *)
Lemma in_time_range_boundaries_counterexample :
  start_time (__init__ None (Some 10) (Some (-5))) = Some 10
  /\ end_time (__init__ None (Some 10) (Some (-5))) = Some 5
  /\ _is_in_time_range (__init__ None (Some 10) (Some (-5))) (entry 10 0) = false
  /\ _is_in_time_range (__init__ None (Some 10) (Some (-5))) (entry 5 0) = false.
Proof. repeat split. Qed.

(** C6 (amended): an entry is in range exactly when no [start_time] is
    configured, or [start_time <= accept_date] and, when [end_time] is
    configured, [accept_date <= end_time].  Hence, as long as the window is
    not empty ([start_time <= end_time], that is [delta >= 0]): an entry
    accepted at [start_time] is in range and one accepted strictly before
    is not; when [end_time] is configured an entry accepted at [end_time]
    is in range and one accepted strictly after is not; and without
    [start_time] every entry is in range. *)
Theorem in_time_range_inclusive :
  forall (self : HaproxyLogFile) (l : HaproxyLogLine),
    (start_time self = None -> _is_in_time_range self l = true)
    /\ forall s, start_time self = Some s ->
         (_is_in_time_range self l = true <->
          s <= accept_date l /\
          (forall e, end_time self = Some e -> accept_date l <= e))
         /\ (accept_date l < s -> _is_in_time_range self l = false)
         /\ (accept_date l = s ->
             (forall e, end_time self = Some e -> s <= e) ->
             _is_in_time_range self l = true)
         /\ forall e, end_time self = Some e ->
              (e < accept_date l -> _is_in_time_range self l = false)
              /\ (accept_date l = e -> s <= e ->
                  _is_in_time_range self l = true).
Proof.
  intros self l. pose proof (in_time_range_iff self l) as Hiff.
  split.
  - intros Hs. rewrite Hs in Hiff. now apply Hiff.
  - intros s Hs. rewrite Hs in Hiff.
    assert (Hchar : _is_in_time_range self l = true <->
                    s <= accept_date l /\
                    (forall e, end_time self = Some e -> accept_date l <= e)).
    { rewrite Hiff. destruct (end_time self) as [e |].
      - split.
        + intros [H1 H2]. split; [assumption|]. now intros e' [= <-].
        + intros [H1 H2]. split; [assumption|]. now apply H2.
      - split.
        + intros [H1 _]. split; [assumption|]. discriminate.
        + intros [H1 _]. now split. }
    split; [exact Hchar|]. split; [|split].
    + intros Hlt. apply not_true_is_false. rewrite Hchar. lia.
    + intros Heq Hwin. apply Hchar. split; [lia|].
      intros e He. specialize (Hwin e He). lia.
    + intros e He. split.
      * intros Hlt. apply not_true_is_false. rewrite Hchar.
        intros [_ H2]. specialize (H2 e He). lia.
      * intros Heq Hwin. apply Hchar. split; [lia|].
        intros e' He'. rewrite He in He'. injection He' as <-. lia.
Qed.

Lemma in_time_range_inclusive_witness :
  _is_in_time_range (__init__ None (Some 10) (Some 5)) (entry 10 0) = true
  /\ _is_in_time_range (__init__ None (Some 10) (Some 5)) (entry 15 0) = true
  /\ _is_in_time_range (__init__ None (Some 10) (Some 5)) (entry 9 0) = false
  /\ _is_in_time_range (__init__ None (Some 10) (Some 5)) (entry 16 0) = false
  /\ _is_in_time_range (__init__ None None (Some 5)) (entry 16 0) = true.
Proof.
  pose (self := __init__ None (Some 10) (Some 5)).
  assert (Hs : start_time self = Some 10) by reflexivity.
  assert (He : end_time self = Some 15) by reflexivity.
  split; [|split; [|split; [|split]]].
  - destruct (in_time_range_inclusive self (entry 10 0)) as [_ H].
    destruct (H 10 Hs) as (_ & _ & Ha & _).
    apply Ha; [reflexivity|]. intros e [= <-]. lia.
  - destruct (in_time_range_inclusive self (entry 15 0)) as [_ H].
    destruct (H 10 Hs) as (_ & _ & _ & Hc).
    destruct (Hc 15 He) as [_ Hc']. apply Hc'; [reflexivity | lia].
  - destruct (in_time_range_inclusive self (entry 9 0)) as [_ H].
    destruct (H 10 Hs) as (_ & Hb & _). apply Hb. simpl. lia.
  - destruct (in_time_range_inclusive self (entry 16 0)) as [_ H].
    destruct (H 10 Hs) as (_ & _ & _ & Hc).
    destruct (Hc 15 He) as [Hd _]. apply Hd. simpl. lia.
  - destruct (in_time_range_inclusive (__init__ None None (Some 5)) (entry 16 0))
      as [H _].
    apply H. reflexivity.
Defined.

(** ** The built-in sorted: ordered, a permutation, stable *)

Section Sorted_facts.
Context {A : Type}.
Variable key : A -> Z.
Variable reverse : bool.

#[local] Abbreviation ins := (insert_sorted key reverse).
#[local] Abbreviation srt := (sorted key reverse).
#[local] Abbreviation bef := (fun x y => before key reverse x y = true).

Lemma before_total x y : before key reverse x y = false -> bef y x.
Proof. unfold before. destruct reverse; intros H; lia. Qed.

Lemma before_trans x y z : bef x y -> bef y z -> bef x z.
Proof. unfold before. destruct reverse; intros H1 H2; lia. Qed.

Lemma before_false_key x y :
  before key reverse x y = false -> key x <> key y.
Proof. unfold before. destruct reverse; intros H; lia. Qed.

Lemma insert_sorted_perm x l : Permutation (x :: l) (ins x l).
Proof.
  induction l as [| y l IH]; simpl.
  - reflexivity.
  - destruct (before key reverse x y).
    + reflexivity.
    + rewrite perm_swap. now apply perm_skip.
Qed.

Lemma sorted_perm l : Permutation l (srt l).
Proof.
  induction l as [| x l IH]; simpl.
  - constructor.
  - rewrite <- insert_sorted_perm. now apply perm_skip.
Qed.

Lemma sorted_length l : List.length (srt l) = List.length l.
Proof. symmetry. apply Permutation_length, sorted_perm. Qed.

Lemma sorted_In x l : In x (srt l) <-> In x l.
Proof.
  split; apply Permutation_in;
    [apply Permutation_sym|]; apply sorted_perm.
Qed.

Lemma insert_sorted_strongly x l :
  StronglySorted bef l -> StronglySorted bef (ins x l).
Proof.
  induction 1 as [| y l Hl IH Hy]; simpl.
  - repeat constructor.
  - destruct (before key reverse x y) eqn:E.
    + constructor; [now constructor|]. constructor; [assumption|].
      eapply Forall_impl; [|exact Hy].
      intros z Hz. now apply before_trans with y.
    + constructor; [assumption|].
      apply (Permutation_Forall (insert_sorted_perm x l)).
      constructor; [now apply before_total | assumption].
Qed.

Lemma sorted_strongly l : StronglySorted bef (srt l).
Proof.
  induction l as [| x l IH]; simpl.
  - constructor.
  - now apply insert_sorted_strongly.
Qed.

(** Stability: [insert_sorted] moves [x] only past entries whose key
    differs from that of [x]. *)
Lemma insert_sorted_stable d x l :
  filter (fun a => key a =? d) (ins x l)
  = filter (fun a => key a =? d) (x :: l).
Proof.
  induction l as [| y l IH]; simpl.
  - reflexivity.
  - destruct (before key reverse x y) eqn:E.
    + reflexivity.
    + apply before_false_key in E. simpl. rewrite IH. simpl.
      destruct (Z.eqb_spec (key x) d), (Z.eqb_spec (key y) d);
        try reflexivity. congruence.
Qed.

Lemma sorted_stable d l :
  filter (fun a => key a =? d) (srt l) = filter (fun a => key a =? d) l.
Proof.
  induction l as [| x l IH]; simpl.
  - reflexivity.
  - rewrite insert_sorted_stable. simpl. now rewrite IH.
Qed.
End Sorted_facts.

(** ** parse_file *)

Section Ingestion_facts.
Variable parse_line : string -> HaproxyLogLine.
Variable strip : string -> string.
Variable open_lines : string -> list string.

#[local] Abbreviation step := (parse_step parse_line strip).
#[local] Abbreviation loop := (parse_loop parse_line strip).
#[local] Abbreviation kept := (in_window_entries parse_line strip).
#[local] Abbreviation rejected := (rejected_lines parse_line strip).

Lemma in_time_range_ext self self' l :
  start_time self' = start_time self -> end_time self' = end_time self ->
  _is_in_time_range self' l = _is_in_time_range self l.
Proof. unfold _is_in_time_range. now intros -> ->. Qed.

Lemma in_window_entries_ext self self' lines :
  start_time self' = start_time self -> end_time self' = end_time self ->
  kept self' lines = kept self lines.
Proof.
  intros Hs He. unfold in_window_entries. apply filter_ext.
  intros p. now rewrite (in_time_range_ext self self').
Qed.

Lemma parse_step_config self ln :
  logfile (step self ln) = logfile self /\
  start_time (step self ln) = start_time self /\
  delta (step self ln) = delta self /\
  end_time (step self ln) = end_time self.
Proof.
  unfold parse_step.
  destruct (valid _); simpl; [destruct (_is_in_time_range _ _)|]; now simpl.
Qed.

(** The loop of [parse_file] in closed form. *)
Lemma parse_loop_closed lines : forall self,
  loop self lines
  = mkFile (logfile self) (start_time self) (delta self) (end_time self)
           (total_lines self + Z.of_nat (List.length lines))
           (_valid_lines self ++ kept self lines)
           (_invalid_lines self ++ rejected lines).
Proof.
  induction lines as [| ln lines IH]; intros self.
  - unfold parse_loop, in_window_entries, rejected_lines. simpl.
    rewrite Z.add_0_r, !app_nil_r. now destruct self.
  - unfold parse_loop in *. cbn [fold_left]. rewrite IH.
    destruct (parse_step_config self ln) as (-> & Hs & -> & He).
    rewrite (in_window_entries_ext self _ lines Hs He), Hs, He.
    unfold in_window_entries, rejected_lines, parse_step.
    cbn [map filter List.length].
    replace (total_lines self + Z.of_nat (S (List.length lines)))
      with (total_lines self + 1 + Z.of_nat (List.length lines)) by lia.
    destruct (valid (parse_line (strip ln))); cbn [negb andb].
    + destruct (_is_in_time_range self (parse_line (strip ln)));
        cbn [total_lines _valid_lines _invalid_lines];
        now rewrite <- ?app_assoc.
    + cbn [total_lines _valid_lines _invalid_lines].
      now rewrite <- app_assoc.
Qed.

Lemma kept_rejected_length self lines :
  (List.length (kept self lines) + List.length (rejected lines)
   <= List.length lines)%nat
  /\ (start_time self = None ->
      (List.length (kept self lines) + List.length (rejected lines)
       = List.length lines)%nat).
Proof.
  unfold in_window_entries, rejected_lines, _is_in_time_range.
  induction lines as [| ln lines [IH1 IH2]]; [now split|].
  cbn [map filter]. split.
  - destruct (valid (parse_line (strip ln))); cbn [negb andb].
    + destruct (match start_time self with None => true | _ => _ end);
        simpl; lia.
    + simpl; lia.
  - intros Hs. specialize (IH2 Hs). rewrite Hs in *.
    destruct (valid (parse_line (strip ln))); simpl; lia.
Qed.
End Ingestion_facts.

(** C7: an ingestion run keeps [total_lines] at least as large as the
    number of retained valid entries plus the number of invalid lines, and
    keeps the two equal when no [start_time] is configured; every line
    read is counted in [total_lines].  On a freshly constructed object
    both relations therefore hold after the run. *)
Theorem total_lines_covers_partition :
  forall (parse_line : string -> HaproxyLogLine) (strip : string -> string)
         (open_lines : string -> list string) (self : HaproxyLogFile),
    let self' := fst (parse_file parse_line strip open_lines self) in
    (cmd_counter self + cmd_counter_invalid self <= total_lines self ->
     cmd_counter self' + cmd_counter_invalid self' <= total_lines self')
    /\ (start_time self = None ->
        total_lines self = cmd_counter self + cmd_counter_invalid self ->
        total_lines self' = cmd_counter self' + cmd_counter_invalid self')
    /\ (forall path, logfile self = Some path ->
        total_lines self'
        = total_lines self + Z.of_nat (List.length (open_lines path)))
    /\ (forall logfile_ start delta_,
        self = __init__ logfile_ start delta_ ->
        cmd_counter self' + cmd_counter_invalid self' <= total_lines self'
        /\ (start = None ->
            total_lines self' = cmd_counter self' + cmd_counter_invalid self')).
Proof.
  intros parse_line strip open_lines self self'.
  assert (Hrun :
    (cmd_counter self + cmd_counter_invalid self <= total_lines self ->
     cmd_counter self' + cmd_counter_invalid self' <= total_lines self')
    /\ (start_time self = None ->
        total_lines self = cmd_counter self + cmd_counter_invalid self ->
        total_lines self' = cmd_counter self' + cmd_counter_invalid self')
    /\ (forall path, logfile self = Some path ->
        total_lines self'
        = total_lines self + Z.of_nat (List.length (open_lines path)))).
  { unfold self', parse_file, cmd_counter, cmd_counter_invalid.
    destruct (logfile self) as [path |]; cbn [fst].
    - rewrite parse_loop_closed.
      cbn [_sort_lines _valid_lines _invalid_lines total_lines].
      rewrite sorted_length, !length_app.
      destruct (kept_rejected_length parse_line strip self (open_lines path))
        as [Hle Heq].
      split; [lia|]. split.
      + intros Hs. specialize (Heq Hs). lia.
      + now intros p [= <-].
    - split; [tauto|]. split; [tauto | discriminate]. }
  destruct Hrun as (Hge & Heq & Hall).
  split; [exact Hge|]. split; [exact Heq|]. split; [exact Hall|].
  intros logfile_ start delta_ Hinit. split.
  - apply Hge. rewrite Hinit.
    unfold cmd_counter, cmd_counter_invalid. simpl. lia.
  - intros Hs. apply Heq; rewrite Hinit; [exact Hs | reflexivity].
Qed.

Lemma total_lines_covers_partition_witness :
  total_lines (fst (toy_parse_file toy_file))
  = cmd_counter (fst (toy_parse_file toy_file))
    + cmd_counter_invalid (fst (toy_parse_file toy_file))
  /\ total_lines (fst (toy_parse_file toy_file))
     = 0 + Z.of_nat (List.length (toy_open "haproxy.log"%string))
  /\ cmd_counter (fst (toy_parse_file toy_file_from_2))
     + cmd_counter_invalid (fst (toy_parse_file toy_file_from_2))
     <= total_lines (fst (toy_parse_file toy_file_from_2)).
Proof.
  destruct (total_lines_covers_partition toy_parse toy_strip toy_open toy_file)
    as (_ & _ & Hall & Hfresh).
  destruct (total_lines_covers_partition toy_parse toy_strip toy_open
              toy_file_from_2) as (Hge & _).
  split; [|split].
  - exact (proj2 (Hfresh _ _ _ eq_refl) eq_refl).
  - exact (Hall "haproxy.log"%string eq_refl).
  - apply Hge. unfold cmd_counter, cmd_counter_invalid. simpl. lia.
Defined.



(** ** _sort_lines *)

Example parse_file_toy :
  toy_parse_file toy_file
  = (mkFile (Some "haproxy.log"%string) None None None 4
            [entry 1 0; entry 2 0; entry 3 0] ["bad"%string],
     None).
Proof. reflexivity. Qed.

Example parse_file_toy_from_2 :
  toy_parse_file toy_file_from_2
  = (mkFile (Some "haproxy.log"%string) (Some 2) None None 4
            [entry 2 0; entry 3 0] ["bad"%string],
     None).
Proof. reflexivity. Qed.

Lemma StronglySorted_weaken {A : Type} (P Q : A -> A -> Prop) (l : list A) :
  (forall a b, P a b -> Q a b) -> StronglySorted P l -> StronglySorted Q l.
Proof.
  intros HPQ. induction 1 as [| a l Hl IH Ha]; constructor.
  - assumption.
  - eapply Forall_impl; [|exact Ha]. intros b. apply HPQ.
Qed.

(** C5: after [parse_file], [_valid_lines] is sorted non-decreasing by
    [accept_date], whatever the order of the lines of the file; it holds
    the valid in-window entries of the file, and the sort is stable: for
    every date, the entries accepted at that date stand in their file
    order. *)
Theorem valid_lines_sorted_stable :
  forall (parse_line : string -> HaproxyLogLine) (strip : string -> string)
         (open_lines : string -> list string)
         (path : string) (start delta_ : option Z),
    let self := __init__ (Some path) start delta_ in
    let self' := fst (parse_file parse_line strip open_lines self) in
    let file_order := in_window_entries parse_line strip self (open_lines path) in
    StronglySorted (fun a b => accept_date a <= accept_date b)
                   (_valid_lines self')
    /\ Permutation file_order (_valid_lines self')
    /\ forall d : Z,
         filter (fun p => accept_date p =? d) (_valid_lines self')
         = filter (fun p => accept_date p =? d) file_order.
Proof.
  intros parse_line strip open_lines path start delta_ self self' file_order.
  assert (E : _valid_lines self' = sorted accept_date false file_order).
  { unfold self', parse_file. cbn [self __init__ logfile fst].
    now rewrite parse_loop_closed. }
  rewrite E. split; [|split].
  - apply StronglySorted_weaken
      with (P := fun a b => before accept_date false a b = true).
    + unfold before. intros a b H. lia.
    + apply sorted_strongly.
  - apply sorted_perm.
  - intros d. apply sorted_stable.
Qed.

(** ** cmd_top_ips *)

Example ip_counter_stale_minimum :
  cmd_ip_counter log_stale_minimum
  = [("a", 1); ("b", 1); ("c", 1); ("d", 1); ("e", 1); ("f", 1); ("g", 1);
     ("h", 1); ("i", 1); ("j", 1); ("k", 2); ("l", 3)]%string.
Proof. reflexivity. Qed.

Example top_ips_stale_minimum :
  cmd_top_ips log_stale_minimum
  = [mkIp "k" 2; mkIp "b" 1; mkIp "c" 1; mkIp "d" 1; mkIp "e" 1; mkIp "f" 1;
     mkIp "g" 1; mkIp "h" 1; mkIp "i" 1; mkIp "j" 1]%string.
Proof. reflexivity. Qed.

Example top_ips_hist_small :
  top_ips_of hist_small
  = [mkIp "A" 50; mkIp "B" 45; mkIp "C" 40; mkIp "D" 35; mkIp "E" 30;
     mkIp "F" 25; mkIp "G" 20; mkIp "H" 15; mkIp "I" 10; mkIp "J" 8]%string.
Proof. reflexivity. Qed.

Example top_ips_hist_busy :
  top_ips_of hist_busy
  = [mkIp "J" 100009; mkIp "I" 100008; mkIp "H" 100007; mkIp "G" 100006;
     mkIp "F" 100005; mkIp "E" 100004; mkIp "D" 100003; mkIp "C" 100002;
     mkIp "B" 100001; mkIp "A" 100000]%string.
Proof. reflexivity. Qed.

Lemma replace_min_length m new l :
  List.length (replace_min m new l) = List.length l.
Proof.
  induction l as [| x l IH]; simpl; [reflexivity|].
  destruct (ip_is (ip x) m); simpl; congruence.
Qed.

Lemma replace_min_None new l : replace_min None new l = l.
Proof. induction l as [| x l IH]; simpl; congruence. Qed.

(** With pairwise distinct keys, overwriting the entry of [km] removes
    exactly that entry and adds the new one. *)
Lemma replace_min_In km new l :
  NoDup (map ip l) -> In km (map ip l) ->
  forall y, In y (replace_min (Some km) new l)
            <-> y = new \/ (In y l /\ ip y <> km).
Proof.
  induction l as [| x l IH]; intros Hnd Hin y; [contradiction|].
  simpl in Hnd. apply NoDup_cons_iff in Hnd as [Hx Hnd].
  cbn [replace_min ip_is]. destruct (String.eqb_spec (ip x) km) as [E | E].
  - subst km. simpl. split.
    + intros [<- | Hy]; [now left|]. right. split; [now right|].
      intros Heq. apply Hx. rewrite <- Heq. now apply in_map.
    + intros [-> | [[<- | Hy] Hne]]; [now left | congruence | now right].
  - destruct Hin as [Hin | Hin]; [contradiction|].
    specialize (IH Hnd Hin y). simpl. rewrite IH. split.
    + intros [<- | [-> | [Hy Hne]]].
      * right. split; [now left | assumption].
      * now left.
      * right. split; [now right | assumption].
    + intros [-> | [[<- | Hy] Hne]].
      * right. now left.
      * now left.
      * right. right. now split.
Qed.

Lemma ti_step_length st e :
  (List.length (ips_list st) <= 10)%nat ->
  (List.length (ips_list (ti_step st e)) <= 10)%nat.
Proof.
  intros H. unfold ti_step, ti_threshold. destruct e as [k c].
  destruct (Z.ltb_spec (Z.of_nat (List.length (ips_list st))) 10).
  - destruct (c <? min_repetitions st); cbn [ips_list];
      rewrite length_app; simpl; lia.
  - destruct (min_repetitions st <? c); cbn [ips_list];
      rewrite ?replace_min_length; assumption.
Qed.

Lemma ti_loop_length h :
  (List.length (ips_list (ti_loop h)) <= 10)%nat.
Proof.
  unfold ti_loop. assert (H : (List.length (ips_list ti_init) <= 10)%nat)
    by (simpl; lia).
  revert H. generalize ti_init. induction h as [| e h IH]; intros st H.
  - exact H.
  - simpl. apply IH. now apply ti_step_length.
Qed.

(** While the candidate list is being filled every key is appended and
    the running minimum is tracked. *)
Lemma ti_fill h : forall st,
  (List.length (ips_list st) + List.length h <= 10)%nat ->
  let st' := fold_left ti_step h st in
  ips_list st' = ips_list st ++ map ip_info_of h
  /\ (forall k c, In (k, c) h -> min_repetitions st' <= c)
  /\ ((min_repetitions st' = min_repetitions st /\ min_ip st' = min_ip st)
      \/ (exists k, min_ip st' = Some k /\ In (k, min_repetitions st') h
                    /\ min_repetitions st' < min_repetitions st)).
Proof.
  induction h as [| [k c] h IH]; intros st Hlen.
  - simpl. rewrite app_nil_r. split; [reflexivity|].
    split; [contradiction | now left].
  - cbn [fold_left]. simpl in Hlen.
    assert (Hstep :
      ips_list (ti_step st (k, c)) = ips_list st ++ [mkIp k c]
      /\ ((c < min_repetitions st /\ min_repetitions (ti_step st (k, c)) = c
           /\ min_ip (ti_step st (k, c)) = Some k)
          \/ (min_repetitions st <= c
              /\ min_repetitions (ti_step st (k, c)) = min_repetitions st
              /\ min_ip (ti_step st (k, c)) = min_ip st))).
    { unfold ti_step, ti_threshold.
      destruct (Z.ltb_spec (Z.of_nat (List.length (ips_list st))) 10); [|lia].
      destruct (Z.ltb_spec c (min_repetitions st));
        cbn [ips_list min_repetitions min_ip];
        (split; [reflexivity|]); [left | right]; now repeat split. }
    destruct Hstep as [Hlist Hmin].
    assert (Hlen' : (List.length (ips_list (ti_step st (k, c)))
                     + List.length h <= 10)%nat).
    { rewrite Hlist, length_app. simpl. lia. }
    destruct (IH _ Hlen') as (IHl & IHle & IHmin). clear IH.
    set (st' := fold_left ti_step h (ti_step st (k, c))) in *.
    cbv zeta. split; [|split].
    + rewrite IHl, Hlist, <- app_assoc. reflexivity.
    + intros k' c' [[= <- <-] | Hin]; [|now apply (IHle k')].
      destruct Hmin as [(H1 & H2 & H3) | (H1 & H2 & H3)];
        destruct IHmin as [[H4 H5] | (k'' & H4 & H5 & H6)]; lia.
    + destruct Hmin as [(H1 & H2 & H3) | (H1 & H2 & H3)];
        destruct IHmin as [[H4 H5] | (k'' & H4 & H5 & H6)].
      * right. exists k. rewrite H5, H4, H3, H2.
        split; [reflexivity|]. split; [now left | assumption].
      * right. exists k''. split; [assumption|]. split; [now right | lia].
      * left. split; congruence.
      * right. exists k''. split; [assumption|]. split; [now right | lia].
Qed.

Lemma In_ip_info_of k c h : In (mkIp k c) (map ip_info_of h) <-> In (k, c) h.
Proof.
  rewrite in_map_iff. split.
  - intros ([k' c'] & E & H). unfold ip_info_of in E. simpl in E.
    now injection E as -> ->.
  - intros H. now exists (k, c).
Qed.

Lemma map_ip_info_of h : map ip (map ip_info_of h) = map fst h.
Proof. rewrite map_map. now apply map_ext. Qed.

(** The candidates are those of the first ten keys when the eleventh key
    has the smallest count. *)
Lemma top_ips_last_is_smallest h10 k c (res : list ip_info) :
  (forall y, In y res <-> In y (map ip_info_of h10)) ->
  ~ In k (map fst h10) ->
  (forall k' c', In (k', c') h10 -> c < c') ->
  exists kmin cmin,
    In (kmin, cmin) (h10 ++ [(k, c)])
    /\ (forall k' c', In (k', c') (h10 ++ [(k, c)]) -> cmin <= c')
    /\ forall k' c', In (mkIp k' c') res
                     <-> In (k', c') (h10 ++ [(k, c)]) /\ k' <> kmin.
Proof.
  intros Hres Hk Hmin. exists k, c. split; [|split].
  - apply in_or_app. right. now left.
  - intros k' c' [Hin | [[= <- <-] | []]]%in_app_or; [|lia].
    specialize (Hmin k' c' Hin). lia.
  - intros k' c'. rewrite Hres, In_ip_info_of, in_app_iff. split.
    + intros Hin. split; [now left|]. intros ->. apply Hk.
      change k with (fst (k, c')). now apply in_map.
    + intros [[Hin | [[= <- <-] | []]] Hne]; [assumption | congruence].
Qed.

(** The candidates after the tracked minimum [km] has been overwritten by
    the eleventh key. *)
Lemma top_ips_evicts_tracked h10 k c km m (res : list ip_info) :
  (forall y, In y res
             <-> In y (replace_min (Some km) (mkIp k c) (map ip_info_of h10))) ->
  NoDup (map fst h10) -> ~ In k (map fst h10) ->
  In (km, m) h10 -> (forall k' c', In (k', c') h10 -> m <= c') -> m < c ->
  exists kmin cmin,
    In (kmin, cmin) (h10 ++ [(k, c)])
    /\ (forall k' c', In (k', c') (h10 ++ [(k, c)]) -> cmin <= c')
    /\ forall k' c', In (mkIp k' c') res
                     <-> In (k', c') (h10 ++ [(k, c)]) /\ k' <> kmin.
Proof.
  intros Hres Hnd Hk Hkm Hmin Hlt. exists km, m. split; [|split].
  - apply in_or_app. now left.
  - intros k' c' [Hin | [[= <- <-] | []]]%in_app_or; [|lia].
    now apply (Hmin k').
  - assert (Hkm' : In km (map fst h10)).
    { change km with (fst (km, m)). now apply in_map. }
    intros k' c'. rewrite Hres, replace_min_In;
      rewrite ?map_ip_info_of; try assumption.
    rewrite In_ip_info_of, in_app_iff. cbn [ip]. split.
    + intros [[= -> ->] | [Hin Hne]].
      * split; [right; now left|]. intros ->. now apply Hk.
      * split; [now left | assumption].
    + intros [[Hin | [[= <- <-] | []]] Hne]; [right; now split | now left].
Qed.

(** X24: [top_ips] never returns more than 10 entries and its result
    is sorted descending by [repetitions].  For a histogram of 11 distinct
    keys with pairwise distinct counts, whenever some count is below the
    initial value 99999 of [min_repetitions], or the last key has the
    smallest count, it returns exactly 10 entries and omits exactly the
    key with the smallest count. *)
Theorem top_ips_of_eleven_keys :
  forall h : ips_dict_t,
    (List.length (top_ips_of h) <= 10)%nat
    /\ StronglySorted (fun a b => repetitions b <= repetitions a) (top_ips_of h)
    /\ (List.length h = 11%nat ->
        NoDup (map fst h) -> NoDup (map snd h) ->
        ((exists k c, In (k, c) h /\ c < 99999)
         \/ (exists h10 k c, h = h10 ++ [(k, c)]
                             /\ forall k' c', In (k', c') h10 -> c < c')) ->
        List.length (top_ips_of h) = 10%nat
        /\ exists kmin cmin,
             In (kmin, cmin) h
             /\ (forall k c, In (k, c) h -> cmin <= c)
             /\ forall k c, In (mkIp k c) (top_ips_of h)
                            <-> In (k, c) h /\ k <> kmin).
Proof.
  intros h. unfold top_ips_of. split; [|split].
  - rewrite sorted_length. apply ti_loop_length.
  - apply StronglySorted_weaken
      with (P := fun a b => before repetitions true a b = true).
    + unfold before. intros a b H. lia.
    + apply sorted_strongly.
  - intros Hlen Hkeys Hcounts Hcond.
    destruct (exists_last (l := h)) as (h10 & [k c] & ->);
      [now intros -> |].
    rewrite length_app in Hlen. simpl in Hlen.
    assert (Hlen10 : List.length h10 = 10%nat) by lia. clear Hlen.
    rewrite map_app in Hkeys, Hcounts. cbn [map fst snd] in Hkeys, Hcounts.
    assert (Hk : ~ In k (map fst h10)).
    { apply NoDup_remove_2 in Hkeys. now rewrite app_nil_r in Hkeys. }
    assert (Hc : ~ In c (map snd h10)).
    { apply NoDup_remove_2 in Hcounts. now rewrite app_nil_r in Hcounts. }
    apply NoDup_remove_1 in Hkeys. rewrite app_nil_r in Hkeys.
    destruct (ti_fill h10 ti_init) as (Hlist & Hle & Htrack);
      [simpl; lia|].
    unfold ti_loop. rewrite fold_left_app. cbn [fold_left].
    set (st := fold_left ti_step h10 ti_init) in *.
    cbn [ips_list min_repetitions min_ip ti_init app] in Hlist, Htrack.
    assert (Hst_len : List.length (ips_list st) = 10%nat).
    { now rewrite Hlist, length_map. }
    assert (Hne : forall k' c', In (k', c') h10 -> c <> c').
    { intros k' c' Hin ->. apply Hc.
      change c' with (snd (k', c')). now apply in_map. }
    (* the two outcomes of the eleventh step *)
    assert (Hsame : (forall k' c', In (k', c') h10 -> c < c') ->
                    ips_list (ti_step st (k, c)) = map ip_info_of h10).
    { intros Hsmall. unfold ti_step, ti_threshold. rewrite Hst_len.
      change (Z.of_nat 10 <? 10) with false. cbv iota.
      destruct (Z.ltb_spec (min_repetitions st) c) as [Hlt | Hge];
        [|exact Hlist].
      cbn [ips_list].
      destruct Htrack as [[_ ->] | (km & _ & Hkm & _)].
      - now rewrite replace_min_None.
      - specialize (Hsmall km _ Hkm). lia. }
    assert (Hunchanged : (forall k' c', In (k', c') h10 -> c < c') ->
      List.length (sorted repetitions true (ips_list (ti_step st (k, c))))
      = 10%nat
      /\ exists kmin cmin,
           In (kmin, cmin) (h10 ++ [(k, c)])
           /\ (forall k' c', In (k', c') (h10 ++ [(k, c)]) -> cmin <= c')
           /\ forall k' c',
                In (mkIp k' c')
                   (sorted repetitions true (ips_list (ti_step st (k, c))))
                <-> In (k', c') (h10 ++ [(k, c)]) /\ k' <> kmin).
    { intros Hsmall. rewrite (Hsame Hsmall). split.
      - now rewrite sorted_length, length_map.
      - apply top_ips_last_is_smallest; try assumption.
        intros y. apply sorted_In. }
    destruct Htrack as [[Hm Hnone] | (km & Hsome & Hkm & Hm)].
    + (* nothing was tracked: every one of the first ten counts is at
         least 99999 *)
      apply Hunchanged.
      destruct Hcond as [(k0 & c0 & Hin0 & Hlow)
                        | (h10' & k0 & c0 & Heq & Hsmall)].
      * apply in_app_or in Hin0. destruct Hin0 as [Hin0 | [[= -> ->] | []]].
        -- specialize (Hle k0 c0 Hin0). lia.
        -- intros k' c' Hin. specialize (Hle k' c' Hin). lia.
      * apply app_inj_tail in Heq. destruct Heq as [-> [= -> ->]].
        exact Hsmall.
    + (* the minimum of the first ten keys is tracked *)
      destruct (Z.lt_total c (min_repetitions st)) as [Hlt | [Heq | Hgt]].
      * apply Hunchanged. intros k' c' Hin.
        specialize (Hle k' c' Hin). lia.
      * exfalso. apply (Hne km (min_repetitions st)); assumption.
      * assert (Hrep : ips_list (ti_step st (k, c))
                       = replace_min (Some km) (mkIp k c) (map ip_info_of h10)).
        { unfold ti_step, ti_threshold. rewrite Hst_len.
          change (Z.of_nat 10 <? 10) with false. cbv iota.
          destruct (Z.ltb_spec (min_repetitions st) c); [|lia].
          cbn [ips_list]. now rewrite Hsome, Hlist. }
        rewrite Hrep. split.
        -- now rewrite sorted_length, replace_min_length, length_map.
        -- apply top_ips_evicts_tracked with (km := km) (m := min_repetitions st);
             try assumption.
           intros y. apply sorted_In.
Qed.

Lemma top_ips_of_eleven_keys_witness :
  List.length (top_ips_of hist_small) = 10%nat
  /\ exists kmin cmin,
       In (kmin, cmin) hist_small
       /\ (forall k c, In (k, c) hist_small -> cmin <= c)
       /\ forall k c, In (mkIp k c) (top_ips_of hist_small)
                      <-> In (k, c) hist_small /\ k <> kmin.
Proof.
  destruct (top_ips_of_eleven_keys hist_small) as (_ & _ & H).
  apply H.
  - reflexivity.
  - repeat constructor; simpl; intuition discriminate.
  - repeat constructor; simpl; intuition discriminate.
  - left. exists "K"%string, 5. split; [|lia].
    simpl. do 10 right. now left.
Defined.

(** C3: on [hist_busy], a histogram of 11 distinct keys with pairwise
    distinct counts, [top_ips] keeps the key ["A"], which has the smallest
    count, and omits the key ["K"], which has the largest one, where it
    should omit exactly the key with the smallest count.  No count being
    below the initial value 99999 of [min_repetitions], that value is
    never replaced, [min_ip] stays [None], and the eleventh key finds no
    entry to overwrite. *)
Theorem top_ips_busy_clients_keeps_smallest :
  List.length hist_busy = 11%nat
  /\ NoDup (map fst hist_busy) /\ NoDup (map snd hist_busy)
  /\ (forall k c, In (k, c) hist_busy -> 100000 <= c)
  /\ In (mkIp "A" 100000) (top_ips_of hist_busy)
  /\ In ("K"%string, 200000) hist_busy
  /\ ~ In "K"%string (map ip (top_ips_of hist_busy)).
Proof.
  split; [reflexivity|].
  split; [repeat constructor; simpl; intuition discriminate|].
  split; [repeat constructor; simpl; intuition discriminate|].
  split; [|split; [|split]].
  - intros k c Hin. simpl in Hin.
    repeat (destruct Hin as [[= <- <-] | Hin]; [lia|]). contradiction.
  - rewrite top_ips_hist_busy. simpl. do 9 right. now left.
  - simpl. do 10 right. now left.
  - rewrite top_ips_hist_busy. simpl. intuition discriminate.
Qed.

(** C4: there is a log on which [cmd_top_ips] keeps a client with fewer
    requests than a client it omits.  In [log_stale_minimum] the client
    ["k"] (2 requests) has overwritten the tracked minimum ["a"]; the
    minimum is not recomputed, so ["a"] is still the tracked key although
    it is no longer a candidate, and the later client ["l"] (3 requests)
    finds nothing to overwrite. *)
Theorem top_ips_keeps_smaller_than_omitted :
  exists (valid_lines : list HaproxyLogLine) (kept omitted : ip_info),
    List.length (cmd_top_ips valid_lines) = 10%nat
    /\ In kept (cmd_top_ips valid_lines)
    /\ In (ip omitted, repetitions omitted) (cmd_ip_counter valid_lines)
    /\ ~ In (ip omitted) (map ip (cmd_top_ips valid_lines))
    /\ repetitions kept < repetitions omitted
    /\ exists km,
         min_ip (ti_loop (cmd_ip_counter valid_lines)) = Some km
         /\ ~ In km (map ip (ips_list (ti_loop (cmd_ip_counter valid_lines)))).
Proof.
  exists log_stale_minimum, (mkIp "k" 2), (mkIp "l" 3).
  rewrite top_ips_stale_minimum, ip_counter_stale_minimum. cbn [ip repetitions].
  split; [reflexivity|]. split; [now left|].
  split; [simpl; do 11 right; now left|].
  split; [simpl; intuition discriminate|].
  split; [lia|].
  exists "a"%string. split; [reflexivity|].
  vm_compute. intuition discriminate.
Qed.

(** ** Histograms *)

Section Defaultdict_facts.
Context {K : Type}.
Variable eqb : K -> K -> bool.
Hypothesis eqb_eq : forall a b, eqb a b = true <-> a = b.

Lemma eqb_refl_true a : eqb a a = true.
Proof. now apply eqb_eq. Qed.

Lemma eqb_false_neq a b : eqb a b = false <-> a <> b.
Proof.
  rewrite <- eqb_eq. destruct (eqb a b); split; congruence.
Qed.

Lemma ddict_get_incr k q d :
  ddict_get eqb q (ddict_incr eqb k d)
  = if eqb k q
    then Some (match ddict_get eqb k d with Some v => v + 1 | None => 1 end)
    else ddict_get eqb q d.
Proof.
  induction d as [| [h v] d IH]; cbn [ddict_incr ddict_get].
  - now destruct (eqb k q).
  - destruct (eqb h k) eqn:Ehk; cbn [ddict_get].
    + apply eqb_eq in Ehk. subst h. now destruct (eqb k q).
    + rewrite IH. destruct (eqb h q) eqn:Ehq; [|reflexivity].
      apply eqb_eq in Ehq. subst h.
      assert (Ekq : eqb k q = false).
      { apply eqb_false_neq. intros ->. now rewrite eqb_refl_true in Ehk. }
      now rewrite Ekq.
Qed.

Lemma ddict_incr_keys k d :
  map fst (ddict_incr eqb k d)
  = if existsb (fun h => eqb h k) (map fst d)
    then map fst d else map fst d ++ [k].
Proof.
  induction d as [| [h v] d IH]; cbn [ddict_incr map fst existsb app].
  - reflexivity.
  - destruct (eqb h k); cbn [map fst orb]; [reflexivity|].
    rewrite IH. now destruct (existsb _ _).
Qed.

Lemma ddict_incr_NoDup k d :
  NoDup (map fst d) -> NoDup (map fst (ddict_incr eqb k d)).
Proof.
  intros Hnd. rewrite ddict_incr_keys.
  destruct (existsb _ _) eqn:E; [assumption|].
  apply NoDup_app; [assumption | repeat constructor; intros [] |].
  intros x Hx [<- | []].
  assert (existsb (fun h => eqb h k) (map fst d) = true); [|congruence].
  apply existsb_exists. exists k. split; [assumption | apply eqb_refl_true].
Qed.

Lemma ddict_incr_total k d :
  total_count (ddict_incr eqb k d) = total_count d + 1.
Proof.
  unfold total_count.
  induction d as [| [h v] d IH]; cbn [ddict_incr map snd fold_right].
  - reflexivity.
  - destruct (eqb h k); cbn [map snd fold_right]; lia.
Qed.

Lemma ddict_get_In k v d :
  NoDup (map fst d) -> (ddict_get eqb k d = Some v <-> In (k, v) d).
Proof.
  induction d as [| [h w] d IH]; cbn [ddict_get map fst]; intros Hnd.
  - split; [discriminate | contradiction].
  - apply NoDup_cons_iff in Hnd as [Hh Hnd]. specialize (IH Hnd).
    destruct (eqb h k) eqn:E.
    + apply eqb_eq in E. subst h. split.
      * intros [= ->]. now left.
      * intros [[= ->] | Hin]; [reflexivity|]. exfalso. apply Hh.
        change k with (fst (k, v)). now apply in_map.
    + rewrite IH. split; [now right|].
      intros [[= -> ->] | Hin]; [|assumption].
      now rewrite eqb_refl_true in E.
Qed.

Section Counting.
Context {A : Type}.
Variable key : A -> option K.

#[local] Abbreviation hist := (histogram_of eqb key).
#[local] Abbreviation occ := (occurrences eqb key).

Lemma histogram_of_snoc xs x :
  hist (xs ++ [x])
  = match key x with
    | Some k => ddict_incr eqb k (hist xs)
    | None => hist xs
    end.
Proof. unfold histogram_of. now rewrite fold_left_app. Qed.

Lemma occurrences_snoc k xs x :
  occ k (xs ++ [x])
  = occ k xs + match key x with
               | Some k' => if eqb k' k then 1 else 0
               | None => 0
               end.
Proof.
  unfold occurrences. rewrite filter_app, length_app. cbn [filter].
  destruct (key x) as [k' |]; [destruct (eqb k' k)|]; simpl; lia.
Qed.

Lemma occurrences_nonneg k xs : 0 <= occ k xs.
Proof. unfold occurrences. lia. Qed.

(** Reading the histogram at [k] gives the number of elements counted
    under [k], and nothing when there is none. *)
Lemma histogram_of_get xs k :
  ddict_get eqb k (hist xs)
  = if occ k xs =? 0 then None else Some (occ k xs).
Proof.
  induction xs as [| x xs IH] using rev_ind; [reflexivity|].
  rewrite histogram_of_snoc, occurrences_snoc.
  pose proof (occurrences_nonneg k xs) as Hnn.
  destruct (key x) as [k' |].
  - rewrite ddict_get_incr. destruct (eqb k' k) eqn:E.
    + apply eqb_eq in E. subst k'. rewrite IH.
      destruct (Z.eqb_spec (occ k xs) 0) as [-> | Hne];
        destruct (Z.eqb_spec (occ k xs + 1) 0); try lia; reflexivity.
    + now rewrite Z.add_0_r.
  - now rewrite Z.add_0_r.
Qed.

Lemma histogram_of_NoDup xs : NoDup (map fst (hist xs)).
Proof.
  induction xs as [| x xs IH] using rev_ind; [constructor|].
  rewrite histogram_of_snoc. destruct (key x); [|assumption].
  now apply ddict_incr_NoDup.
Qed.

Lemma histogram_of_total xs :
  total_count (hist xs)
  = Z.of_nat (List.length (filter (fun x => match key x with
                                            | Some _ => true
                                            | None => false
                                            end) xs)).
Proof.
  induction xs as [| x xs IH] using rev_ind; [reflexivity|].
  rewrite histogram_of_snoc, filter_app, length_app. cbn [filter].
  destruct (key x).
  - rewrite ddict_incr_total, IH. simpl. lia.
  - rewrite IH. simpl. lia.
Qed.

Lemma histogram_of_In xs k n :
  In (k, n) (hist xs) <-> n = occ k xs /\ 0 < n.
Proof.
  rewrite <- ddict_get_In by apply histogram_of_NoDup.
  rewrite histogram_of_get. pose proof (occurrences_nonneg k xs).
  destruct (Z.eqb_spec (occ k xs) 0); split.
  - discriminate.
  - intros [-> ?]. lia.
  - intros [= <-]. lia.
  - now intros [-> _].
Qed.
End Counting.
End Defaultdict_facts.

Lemma filter_all_length {A : Type} (l : list A) :
  List.length (filter (fun _ => true) l) = List.length l.
Proof. induction l as [| x l IH]; simpl; congruence. Qed.

(** A loop that counts every line under [key ln]. *)
Lemma counting_loop {K : Type} (eqb : K -> K -> bool)
  (eqb_eq : forall a b, eqb a b = true <-> a = b)
  (key : HaproxyLogLine -> K) (ls : list HaproxyLogLine) (k : K) :
  let d := fold_left (fun d ln => ddict_incr eqb (key ln) d) ls [] in
  let n := Z.of_nat (List.length (filter (fun ln => eqb (key ln) k) ls)) in
  ddict_get eqb k d = (if n =? 0 then None else Some n)
  /\ NoDup (map fst d)
  /\ total_count d = Z.of_nat (List.length ls).
Proof.
  intros d n.
  change d with (histogram_of eqb (fun ln => Some (key ln)) ls).
  change n with (occurrences eqb (fun ln => Some (key ln)) k ls).
  split; [now apply histogram_of_get|].
  split; [now apply histogram_of_NoDup|].
  rewrite histogram_of_total. now rewrite filter_all_length.
Qed.

(** X1: reading [cmd_http_methods] at a method gives the number of valid
    lines with that method, and nothing for a method that no line has;
    no method is listed twice and the counts add up to the number of
    valid lines. *)
Theorem http_methods_counts :
  forall (ls : list HaproxyLogLine) (m : string),
    let n := Z.of_nat (List.length
               (filter (fun ln => String.eqb (http_request_method ln) m) ls)) in
    ddict_get String.eqb m (cmd_http_methods ls)
    = (if n =? 0 then None else Some n)
    /\ NoDup (map fst (cmd_http_methods ls))
    /\ total_count (cmd_http_methods ls) = Z.of_nat (List.length ls).
Proof.
  intros ls m.
  exact (counting_loop String.eqb String.eqb_eq http_request_method ls m).
Qed.

(** X2: reading [cmd_status_codes_counter] at a status code gives the
    number of valid lines with that code, and nothing for a code that no
    line has; no code is listed twice and the counts add up to the number
    of valid lines. *)
Theorem status_codes_counts :
  forall (ls : list HaproxyLogLine) (code : Z),
    let n := Z.of_nat (List.length
               (filter (fun ln => status_code ln =? code) ls)) in
    ddict_get Z.eqb code (cmd_status_codes_counter ls)
    = (if n =? 0 then None else Some n)
    /\ NoDup (map fst (cmd_status_codes_counter ls))
    /\ total_count (cmd_status_codes_counter ls) = Z.of_nat (List.length ls).
Proof.
  intros ls code.
  exact (counting_loop Z.eqb Z.eqb_eq status_code ls code).
Qed.

(** X3: reading [cmd_request_path_counter] at a path gives the number of
    valid lines that request that path, and nothing for a path that no
    line requests; no path is listed twice and the counts add up to the
    number of valid lines. *)
Theorem request_path_counts :
  forall (ls : list HaproxyLogLine) (path : string),
    let n := Z.of_nat (List.length
               (filter (fun ln => String.eqb (http_request_path ln) path) ls)) in
    ddict_get String.eqb path (cmd_request_path_counter ls)
    = (if n =? 0 then None else Some n)
    /\ NoDup (map fst (cmd_request_path_counter ls))
    /\ total_count (cmd_request_path_counter ls) = Z.of_nat (List.length ls).
Proof.
  intros ls path.
  exact (counting_loop String.eqb String.eqb_eq http_request_path ls path).
Qed.

(** X4: reading [cmd_server_load] at a server gives the number of valid
    lines that this server handled, and nothing for a server that handled
    none; no server is listed twice and the counts add up to the number of
    valid lines. *)
Theorem server_load_counts :
  forall (ls : list HaproxyLogLine) (server : string),
    let n := Z.of_nat (List.length
               (filter (fun ln => String.eqb (server_name ln) server) ls)) in
    ddict_get String.eqb server (cmd_server_load ls)
    = (if n =? 0 then None else Some n)
    /\ NoDup (map fst (cmd_server_load ls))
    /\ total_count (cmd_server_load ls) = Z.of_nat (List.length ls).
Proof.
  intros ls server.
  exact (counting_loop String.eqb String.eqb_eq server_name ls server).
Qed.

(** ** cmd_ip_counter *)

Lemma dict_incr_ddict k d : dict_incr k d = ddict_incr String.eqb k d.
Proof.
  induction d as [| [h v] d IH]; simpl; [reflexivity|].
  now rewrite IH.
Qed.

(** The key under which [cmd_ip_counter] counts a line. *)
Lemma ip_counter_histogram ls :
  cmd_ip_counter ls
  = histogram_of String.eqb
      (fun ln => option_map slice_1_m1 (captured_request_headers ln)) ls.
Proof.
  unfold cmd_ip_counter, histogram_of.
  generalize (@nil (string * Z)).
  induction ls as [| l ls IH]; intros d; [reflexivity|].
  cbn [fold_left]. rewrite IH. f_equal.
  unfold ip_counter_step. destruct (captured_request_headers l); simpl.
  - apply dict_incr_ddict.
  - reflexivity.
Qed.

(** X5: reading [cmd_ip_counter] at a client gives the number of valid
    lines that captured a header whose text without its first and last
    character is that client; lines without captured headers are not
    counted; no client is listed twice and the counts add up to the number
    of lines with captured headers. *)
Theorem ip_counter_counts :
  forall (ls : list HaproxyLogLine) (client : string),
    let n := Z.of_nat (List.length
               (filter (fun ln => match captured_request_headers ln with
                                  | Some h => String.eqb (slice_1_m1 h) client
                                  | None => false
                                  end) ls)) in
    ddict_get String.eqb client (cmd_ip_counter ls)
    = (if n =? 0 then None else Some n)
    /\ NoDup (map fst (cmd_ip_counter ls))
    /\ total_count (cmd_ip_counter ls)
       = Z.of_nat (List.length
           (filter (fun ln => match captured_request_headers ln with
                              | Some _ => true
                              | None => false
                              end) ls)).
Proof.
  intros ls client n. rewrite ip_counter_histogram.
  split; [|split].
  - rewrite (histogram_of_get String.eqb String.eqb_eq).
    unfold occurrences, n.
    erewrite filter_ext; [reflexivity|].
    intros ln. cbv beta. now destruct (captured_request_headers ln).
  - apply (histogram_of_NoDup String.eqb String.eqb_eq).
  - rewrite histogram_of_total.
    erewrite filter_ext; [reflexivity|].
    intros ln. cbv beta. now destruct (captured_request_headers ln).
Qed.

Lemma list_ascii_of_string_app s t :
  list_ascii_of_string (s ++ t)
  = (list_ascii_of_string s ++ list_ascii_of_string t)%list.
Proof. induction s as [| a s IH]; simpl; congruence. Qed.

(** [s[1:-1]] drops the first and the last character, whatever they are. *)
Lemma slice_1_m1_wrapped a b s :
  slice_1_m1 (String a (s ++ String b EmptyString)) = s.
Proof.
  unfold slice_1_m1. cbn [list_ascii_of_string tl].
  rewrite list_ascii_of_string_app. cbn [list_ascii_of_string].
  rewrite removelast_last. apply string_of_list_ascii_of_string.
Qed.

Lemma slice_1_m1_short s :
  (String.length s <= 2)%nat -> slice_1_m1 s = EmptyString.
Proof.
  destruct s as [| a [| b [| c s]]]; simpl; intros H; try reflexivity; lia.
Qed.

(** X6: the client key is positional: a captured header is counted under
    its text without the first and the last character, whatever these two
    characters are, so a log whose lines all wrap the same client yields a
    single key holding the number of lines; a header of at most two
    characters is counted under the empty key. *)
Theorem ip_counter_strips_delimiters :
  forall (ls : list HaproxyLogLine) (client : string),
    ls <> [] ->
    (Forall (fun ln => exists a b,
               captured_request_headers ln
               = Some (String a (client ++ String b EmptyString))) ls ->
     cmd_ip_counter ls = [(client, Z.of_nat (List.length ls))])
    /\ (Forall (fun ln => exists h,
                  captured_request_headers ln = Some h
                  /\ (String.length h <= 2)%nat) ls ->
        cmd_ip_counter ls = [(EmptyString, Z.of_nat (List.length ls))]).
Proof.
  assert (Hsingle : forall ls c,
            ls <> [] ->
            Forall (fun ln => exists h, captured_request_headers ln = Some h
                                        /\ slice_1_m1 h = c) ls ->
            cmd_ip_counter ls = [(c, Z.of_nat (List.length ls))]).
  { intros ls c Hne Hall. rewrite ip_counter_histogram.
    induction ls as [| x ls IH] using rev_ind; [contradiction|].
    apply Forall_app in Hall as [Hall Hx].
    inversion_clear Hx as [| ? ? (h & Hh & Hc) _].
    rewrite histogram_of_snoc, Hh, length_app. cbn [option_map List.length].
    rewrite Hc. destruct ls as [| y ls'].
    - reflexivity.
    - rewrite IH by (assumption || discriminate).
      cbn [ddict_incr]. rewrite String.eqb_refl. do 2 f_equal. lia. }
  intros ls client Hne. split; intros Hall; apply Hsingle; try assumption.
  - eapply Forall_impl; [|exact Hall]. intros ln (a & b & Hh).
    eexists. split; [exact Hh | apply slice_1_m1_wrapped].
  - eapply Forall_impl; [|exact Hall]. intros ln (h & Hh & Hlen).
    exists h. split; [exact Hh | now apply slice_1_m1_short].
Qed.

Lemma ip_counter_strips_delimiters_witness :
  cmd_ip_counter [entry_from "10.0.0.1" 0; entry_from "10.0.0.1" 1]
  = [("10.0.0.1"%string, Z.of_nat 2)]
  /\ cmd_ip_counter [entry_from EmptyString 0] = [(EmptyString, Z.of_nat 1)].
Proof.
  split.
  - apply (ip_counter_strips_delimiters
             [entry_from "10.0.0.1" 0; entry_from "10.0.0.1" 1]
             "10.0.0.1"%string).
    + discriminate.
    + repeat constructor; exists "{"%char, "}"%char; reflexivity.
  - apply (ip_counter_strips_delimiters [entry_from EmptyString 0] EmptyString).
    + discriminate.
    + repeat constructor. exists "{}"%string. split; [reflexivity | simpl; lia].
Defined.

(** ** cmd_top_ips: size and origin of the result *)

Lemma ti_step_full st e :
  List.length (ips_list st) = 10%nat ->
  List.length (ips_list (ti_step st e)) = 10%nat.
Proof.
  intros H. unfold ti_step, ti_threshold. destruct e as [k c]. rewrite H.
  change (Z.of_nat 10 <? 10) with false. cbv iota.
  destruct (min_repetitions st <? c); cbn [ips_list];
    now rewrite ?replace_min_length.
Qed.

Lemma ti_loop_full h : forall st,
  List.length (ips_list st) = 10%nat ->
  List.length (ips_list (fold_left ti_step h st)) = 10%nat.
Proof.
  induction h as [| e h IH]; intros st H; [exact H|].
  cbn [fold_left]. apply IH. now apply ti_step_full.
Qed.

(** X7: [top_ips] returns as many entries as the histogram has keys, up
    to 10: with fewer than ten keys nothing is padded, with more than ten
    the result has exactly ten entries. *)
Theorem top_ips_length :
  forall h : ips_dict_t,
    List.length (top_ips_of h) = Nat.min 10 (List.length h).
Proof.
  intros h. unfold top_ips_of, ti_loop. rewrite sorted_length.
  replace (fold_left ti_step h ti_init)
    with (fold_left ti_step (skipn 10 h)
                    (fold_left ti_step (firstn 10 h) ti_init))
    by now rewrite <- fold_left_app, firstn_skipn.
  destruct (ti_fill (firstn 10 h) ti_init) as (Hlist & _).
  { rewrite length_firstn. cbn [ips_list ti_init List.length]. lia. }
  cbn [ips_list ti_init app] in Hlist.
  destruct (Nat.le_gt_cases (List.length h) 10) as [Hle | Hgt].
  - rewrite skipn_all2 by assumption. cbn [fold_left].
    rewrite Hlist, length_map, length_firstn. reflexivity.
  - rewrite ti_loop_full; [lia|].
    rewrite Hlist, length_map, length_firstn. lia.
Qed.

(** X8: a histogram of at most ten keys is returned whole: [top_ips] is
    the stable descending sort of all its items, none being dropped. *)
Theorem top_ips_small_histogram :
  forall h : ips_dict_t,
    (List.length h <= 10)%nat ->
    top_ips_of h = sorted repetitions true (map ip_info_of h)
    /\ forall k c, In (mkIp k c) (top_ips_of h) <-> In (k, c) h.
Proof.
  intros h Hlen.
  assert (E : top_ips_of h = sorted repetitions true (map ip_info_of h)).
  { unfold top_ips_of, ti_loop.
    destruct (ti_fill h ti_init) as (Hlist & _); [simpl; lia|].
    now rewrite Hlist. }
  split; [exact E|].
  intros k c. rewrite E, sorted_In. apply In_ip_info_of.
Qed.

Lemma top_ips_small_histogram_witness :
  top_ips_of [("b", 1); ("a", 3); ("c", 1)]%string
  = sorted repetitions true
      (map ip_info_of [("b", 1); ("a", 3); ("c", 1)]%string).
Proof.
  apply (top_ips_small_histogram [("b", 1); ("a", 3); ("c", 1)]%string).
  simpl. lia.
Defined.

Lemma replace_min_sub m new l y :
  In y (replace_min m new l) -> y = new \/ In y l.
Proof.
  induction l as [| x l IH]; simpl; [tauto|].
  destruct (ip_is (ip x) m); simpl; intuition.
Qed.

Lemma replace_min_NoDup m new l :
  NoDup (map ip l) -> ~ In (ip new) (map ip l) ->
  NoDup (map ip (replace_min m new l)).
Proof.
  induction l as [| x l IH]; simpl; intros Hnd Hnew; [constructor|].
  apply NoDup_cons_iff in Hnd as [Hx Hnd].
  destruct (ip_is (ip x) m); cbn [map].
  - constructor; [tauto | assumption].
  - constructor; [|apply IH; tauto].
    intros Hin. apply in_map_iff in Hin as (y & Hy & Hin).
    apply replace_min_sub in Hin as [-> | Hin].
    + apply Hnew. now left.
    + apply Hx. rewrite <- Hy. now apply in_map.
Qed.

(** The candidates are items already iterated over, one per key. *)
Lemma ti_loop_origin todo : forall done st,
  NoDup (map fst (done ++ todo)) ->
  (forall r, In r (ips_list st) -> In (ip r, repetitions r) done) ->
  NoDup (map ip (ips_list st)) ->
  (forall r, In r (ips_list (fold_left ti_step todo st)) ->
             In (ip r, repetitions r) (done ++ todo))
  /\ NoDup (map ip (ips_list (fold_left ti_step todo st))).
Proof.
  induction todo as [| [k c] todo IH]; intros done st Hkeys Hsub Hnd.
  - rewrite app_nil_r. now split.
  - cbn [fold_left].
    replace (done ++ (k, c) :: todo) with ((done ++ [(k, c)]) ++ todo) in *
      by now rewrite <- app_assoc.
    assert (Hk : ~ In k (map ip (ips_list st))).
    { intros Hin. apply in_map_iff in Hin as (r & <- & Hr).
      apply Hsub in Hr. rewrite !map_app in Hkeys.
      apply NoDup_app_remove_r in Hkeys. cbn [map fst] in Hkeys.
      apply NoDup_remove_2 in Hkeys. rewrite app_nil_r in Hkeys.
      apply Hkeys. change (ip r) with (fst (ip r, repetitions r)).
      now apply in_map. }
    apply IH; [assumption | |].
    + intros r Hr. apply in_or_app. unfold ti_step, ti_threshold in Hr.
      destruct (Z.of_nat (List.length (ips_list st)) <? 10).
      * assert (Hr' : In r (ips_list st ++ [mkIp k c])).
        { destruct (c <? min_repetitions st); exact Hr. }
        apply in_app_or in Hr' as [Hr' | [<- | []]];
          [left; now apply Hsub | right; now left].
      * destruct (min_repetitions st <? c); [|left; now apply Hsub].
        apply replace_min_sub in Hr as [-> | Hr];
          [right; now left | left; now apply Hsub].
    + unfold ti_step, ti_threshold.
      destruct (Z.of_nat (List.length (ips_list st)) <? 10).
      * assert (Hnd' : NoDup (map ip (ips_list st ++ [mkIp k c]))).
        { rewrite map_app. apply NoDup_app; [assumption | |].
          - repeat constructor. intros [].
          - intros x Hx [<- | []]. now apply Hk. }
        now destruct (c <? min_repetitions st).
      * destruct (min_repetitions st <? c); [|assumption].
        now apply replace_min_NoDup.
Qed.

(** X9: every entry returned by [cmd_top_ips] is an item of
    [cmd_ip_counter], with the count found there, and no client is
    returned twice. *)
Theorem top_ips_from_ip_counter :
  forall ls : list HaproxyLogLine,
    (forall r, In r (cmd_top_ips ls) ->
               In (ip r, repetitions r) (cmd_ip_counter ls))
    /\ NoDup (map ip (cmd_top_ips ls)).
Proof.
  intros ls. unfold cmd_top_ips, top_ips_of, ti_loop.
  destruct (ti_loop_origin (cmd_ip_counter ls) [] ti_init) as [Hsub Hnd].
  - cbn [app]. rewrite ip_counter_histogram.
    apply (histogram_of_NoDup String.eqb String.eqb_eq).
  - intros r [].
  - constructor.
  - split.
    + intros r Hr. apply sorted_In in Hr. now apply Hsub.
    + eapply Permutation_NoDup; [|exact Hnd].
      apply Permutation_map, sorted_perm.
Qed.

(** ** cmd_queue_peaks: what one step does *)

Lemma qp_step_spec st x :
  line (qp_step st x) = Some x /\ queue (qp_step st x) = queue_backend x /\
  ((queue_backend x = 0 /\ qp_threshold < current_peak st /\
    peaks (qp_step st x)
    = peaks st ++ [mkPeak (current_peak st) (current_span st)
                          (first_on_queue st) (accept_date x)] /\
    current_peak (qp_step st x) = 0 /\ current_span (qp_step st x) = 0 /\
    first_on_queue (qp_step st x) = None)
   \/ (queue_backend x <= 0 /\
       (queue_backend x = 0 -> current_peak st <= qp_threshold) /\
       peaks (qp_step st x) = peaks st /\
       current_peak (qp_step st x)
       = Z.max (current_peak st) (queue_backend x) /\
       current_span (qp_step st x) = current_span st /\
       first_on_queue (qp_step st x) = first_on_queue st)
   \/ (0 < queue_backend x /\
       peaks (qp_step st x) = peaks st /\
       current_peak (qp_step st x)
       = Z.max (current_peak st) (queue_backend x) /\
       current_span (qp_step st x) = current_span st + 1 /\
       first_on_queue (qp_step st x)
       = match first_on_queue st with
         | Some d => Some d
         | None => Some (accept_date x)
         end)).
Proof.
  split; [reflexivity|]. split; [reflexivity|].
  destruct (Z.lt_trichotomy (queue_backend x) 0) as [Hneg | [Hzero | Hpos]].
  - right. left. unfold qp_step.
    destruct (Z.ltb_spec 0 (queue_backend x)); [lia|].
    destruct (Z.eqb_spec (queue_backend x) 0); [lia|].
    cbn [andb peaks current_peak current_span first_on_queue].
    split; [lia|]. split; [lia|]. split; [reflexivity|].
    split; [|split; [reflexivity | now destruct (first_on_queue st)]].
    destruct (Z.ltb_spec (current_peak st) (queue_backend x)); lia.
  - destruct (Z.lt_ge_cases qp_threshold (current_peak st)) as [Hgt | Hle].
    + left. split; [assumption|]. split; [assumption|].
      split; [now apply qp_step_emits|].
      unfold qp_step. rewrite Hzero.
      apply Z.ltb_lt in Hgt. rewrite Hgt.
      cbn [Z.eqb andb current_peak current_span first_on_queue].
      now rewrite Z.ltb_irrefl.
    + right. left. unfold qp_step. rewrite Hzero.
      destruct (Z.ltb_spec qp_threshold (current_peak st)); [lia|].
      cbn [Z.eqb andb peaks current_peak current_span first_on_queue].
      rewrite Z.ltb_irrefl.
      split; [lia|]. split; [lia|]. split; [reflexivity|].
      split; [|split; [reflexivity | now destruct (first_on_queue st)]].
      destruct (Z.ltb_spec (current_peak st) 0); lia.
  - right. right. unfold qp_step.
    destruct (Z.ltb_spec 0 (queue_backend x)); [|lia].
    destruct (Z.eqb_spec (queue_backend x) 0); [lia|].
    cbn [andb peaks current_peak current_span first_on_queue].
    split; [assumption|]. split; [reflexivity|].
    split; [|split; reflexivity].
    destruct (Z.ltb_spec (current_peak st) (queue_backend x)); lia.
Qed.

(** What the code after the loop returns. *)
Lemma qp_finish_spec ls :
  (cmd_queue_peaks ls = peaks (qp_loop ls)
   /\ (queue (qp_loop ls) <= 0 \/ current_peak (qp_loop ls) <= qp_threshold))
  \/ (exists ls' ln,
        ls = ls' ++ [ln] /\ 0 < queue_backend ln /\
        qp_threshold < current_peak (qp_loop ls) /\
        cmd_queue_peaks ls
        = peaks (qp_loop ls)
          ++ [mkPeak (current_peak (qp_loop ls)) (current_span (qp_loop ls))
                     (first_on_queue (qp_loop ls)) (accept_date ln)]).
Proof.
  destruct (qp_loop_inv ls) as (_ & _ & Hline & _).
  unfold cmd_queue_peaks, qp_finish.
  destruct (Z.ltb_spec 0 (queue (qp_loop ls))) as [Hq | Hq];
    [|left; split; [reflexivity | now left]].
  destruct (Z.ltb_spec qp_threshold (current_peak (qp_loop ls))) as [Hp | Hp];
    [|left; split; [reflexivity | now right]].
  cbn [andb]. destruct (line (qp_loop ls)) as [ln |].
  - destruct Hline as [[ls' ->] Hqueue]. right. exists ls', ln.
    split; [reflexivity|]. split; [lia|]. now split.
  - destruct Hline as [_ Hzero]. lia.
Qed.

(** ** cmd_queue_peaks: when something is reported *)

Lemma qp_loop_quiet ls :
  Forall (fun l => queue_backend l <= qp_threshold) ls ->
  peaks (qp_loop ls) = [] /\ 0 <= current_peak (qp_loop ls) <= qp_threshold.
Proof.
  induction ls as [| x ls IH] using rev_ind; intros Hall.
  - split; [reflexivity|]. unfold qp_threshold. simpl. lia.
  - apply Forall_app in Hall as [Hall Hx]. inversion_clear Hx as [| ? ? Hx' _].
    destruct (IH Hall) as [Hpk Hcp]. rewrite qp_loop_snoc.
    destruct (qp_step_spec (qp_loop ls) x)
      as (_ & _ & [(_ & Hgt & _) | [(_ & _ & -> & -> & _) | (_ & -> & -> & _)]]);
      [lia | split; [assumption | lia] | split; [assumption | lia]].
Qed.

Lemma qp_loop_loud ls :
  Forall (fun l => 0 <= queue_backend l) ls ->
  Exists (fun l => qp_threshold < queue_backend l) ls ->
  peaks (qp_loop ls) <> []
  \/ (qp_threshold < current_peak (qp_loop ls) /\ 0 < queue (qp_loop ls)).
Proof.
  induction ls as [| x ls IH] using rev_ind; intros Hnn Hex.
  - inversion Hex.
  - apply Forall_app in Hnn as [Hnn Hx]. inversion_clear Hx as [| ? ? Hx' _].
    rewrite qp_loop_snoc.
    assert (Hgrow : peaks (qp_loop ls) <> [] ->
                    peaks (qp_step (qp_loop ls) x) <> []).
    { destruct (qp_step_spec (qp_loop ls) x)
        as (_ & _ & [(_ & _ & -> & _) | [(_ & _ & -> & _) | (_ & -> & _)]]);
        try tauto.
      intros _ Hnil. now apply app_eq_nil in Hnil as [_ Hnil]. }
    assert (Hopen : qp_threshold < current_peak (qp_loop ls)
                    \/ qp_threshold < queue_backend x ->
                    peaks (qp_step (qp_loop ls) x) <> []
                    \/ (qp_threshold < current_peak (qp_step (qp_loop ls) x)
                        /\ 0 < queue (qp_step (qp_loop ls) x))).
    { unfold qp_threshold. intros Hor.
      destruct (qp_step_spec (qp_loop ls) x)
        as (_ & -> & [(_ & _ & -> & _) | [(Hle & Hz & _) | (Hpos & _ & -> & _)]]).
      - left. intros Hnil. now apply app_eq_nil in Hnil as [_ Hnil].
      - assert (queue_backend x = 0) by lia.
        unfold qp_threshold in Hz. lia.
      - right. lia. }
    apply Exists_app in Hex as [Hex | Hex].
    + destruct (IH Hnn Hex) as [Hne | [Hgt _]];
        [left; now apply Hgrow | apply Hopen; now left].
    + inversion_clear Hex as [? ? Hgt | ? ? Hex']; [|inversion Hex'].
      apply Hopen. now right.
Qed.

(** X10: on entries with non-negative queue depths, [cmd_queue_peaks]
    returns the empty list exactly when no entry has a queue depth above
    the threshold 1: any entry above the threshold is reported, either at
    the next entry that is not queued or at the end of the input. *)
Theorem queue_peaks_empty_iff :
  forall ls : list HaproxyLogLine,
    Forall (fun l => 0 <= queue_backend l) ls ->
    (cmd_queue_peaks ls = []
     <-> Forall (fun l => queue_backend l <= qp_threshold) ls).
Proof.
  intros ls Hnn. split.
  - intros Hnil.
    destruct (Forall_Exists_dec (fun l => queue_backend l <= qp_threshold)
                (fun l => Z_le_dec (queue_backend l) qp_threshold) ls)
      as [Hall | Hex]; [assumption | exfalso].
    assert (Hex' : Exists (fun l => qp_threshold < queue_backend l) ls).
    { eapply Exists_impl; [|exact Hex]. simpl. intros; lia. }
    pose proof (qp_loop_loud ls Hnn Hex') as Hloud.
    destruct (qp_finish_spec ls) as [[E Hclosed] | (ls' & ln & _ & _ & _ & E)];
      rewrite E in Hnil.
    + destruct Hloud as [Hne | Hopen]; [contradiction | lia].
    + now apply app_eq_nil in Hnil as [_ Hnil].
  - intros Hall. destruct (qp_loop_quiet ls Hall) as [Hpk Hcp].
    destruct (qp_finish_spec ls) as [[E _] | (ls' & ln & _ & _ & Hgt & _)];
      [congruence | lia].
Qed.

Lemma queue_peaks_empty_iff_witness :
  cmd_queue_peaks (log_of_queues [0; 1; 1; 0; 1]) = []
  <-> Forall (fun l => queue_backend l <= qp_threshold)
             (log_of_queues [0; 1; 1; 0; 1]).
Proof.
  apply (queue_peaks_empty_iff (log_of_queues [0; 1; 1; 0; 1])).
  repeat constructor; simpl; lia.
Defined.

(** ** cmd_queue_peaks: spans and first dates *)

Lemma span_total_snoc ps r : span_total (ps ++ [r]) = span_total ps + span r.
Proof.
  unfold span_total. induction ps as [| p ps IH]; simpl in *; lia.
Qed.

Lemma queued_entries_snoc ls x :
  queued_entries (ls ++ [x])
  = queued_entries ls + (if 0 <? queue_backend x then 1 else 0).
Proof.
  unfold queued_entries. rewrite filter_app, length_app. cbn [filter].
  destruct (0 <? queue_backend x); simpl; lia.
Qed.

Lemma first_before_last_snoc ls x r :
  first_before_last ls r -> first_before_last (ls ++ [x]) r.
Proof.
  intros (pre & z & post & l & -> & Hl & Hq & Hf & Hz).
  exists pre, z, (post ++ [x]), l.
  split; [now rewrite <- app_assoc|]. now repeat split.
Qed.

(** The invariant of the loop on its counters. *)
Lemma qp_loop_counters ls :
  0 <= current_span (qp_loop ls) /\ 0 <= current_peak (qp_loop ls)
  /\ (0 < current_peak (qp_loop ls) -> 1 <= current_span (qp_loop ls))
  /\ (0 < current_span (qp_loop ls) -> first_on_queue (qp_loop ls) <> None)
  /\ (forall d, first_on_queue (qp_loop ls) = Some d ->
      exists l, In l ls /\ 0 < queue_backend l /\ accept_date l = d)
  /\ span_total (peaks (qp_loop ls)) + current_span (qp_loop ls)
     = queued_entries ls
  /\ forall r, In r (peaks (qp_loop ls)) ->
               1 <= span r /\ first_before_last ls r.
Proof.
  induction ls as [| x ls IH] using rev_ind.
  - simpl. repeat split; try lia; try discriminate; contradiction.
  - destruct IH as (Hs & Hp & Hps & Hsf & Hfirst & Hsum & Hrec).
    rewrite qp_loop_snoc, queued_entries_snoc.
    set (st := qp_loop ls) in *.
    assert (Hold : forall r, In r (peaks st) ->
                   1 <= span r /\ first_before_last (ls ++ [x]) r).
    { intros r Hr. destruct (Hrec r Hr). split; [assumption|].
      now apply first_before_last_snoc. }
    assert (Hkeep : forall d, first_on_queue st = Some d ->
              exists l, In l (ls ++ [x]) /\ 0 < queue_backend l
                        /\ accept_date l = d).
    { intros d Hd. destruct (Hfirst d Hd) as (l & Hl & Hq & Ha).
      exists l. split; [apply in_or_app; now left | now split]. }
    destruct (qp_step_spec st x)
      as (_ & _ & [(Hz & Hgt & -> & -> & -> & ->)
                  | [(Hle & _ & -> & -> & -> & ->)
                    | (Hpos & -> & -> & -> & ->)]]).
    + (* the open run is reported *)
      unfold qp_threshold in Hgt. rewrite span_total_snoc. cbn [span].
      destruct (Z.ltb_spec 0 (queue_backend x)); [lia|].
      split; [lia|]. split; [lia|]. split; [lia|]. split; [lia|].
      split; [discriminate|]. split; [lia|].
      intros r [Hr | [<- | []]]%in_app_or; [now apply Hold|].
      cbn [span]. split; [lia|].
      destruct (first_on_queue st) as [d |] eqn:Ef;
        [|exfalso; apply Hsf; [lia | reflexivity]].
      destruct (Hfirst d eq_refl) as (l & Hl & Hq & Ha).
      exists ls, x, [], l. cbn [first last].
      split; [reflexivity|]. split; [apply in_or_app; now left|].
      split; [assumption|]. split; [now rewrite Ha | reflexivity].
    + (* an entry that is not queued and reports nothing *)
      destruct (Z.ltb_spec 0 (queue_backend x)); [lia|].
      rewrite Z.max_l by lia.
      split; [lia|]. split; [lia|]. split; [assumption|].
      split; [assumption|]. split; [exact Hkeep|]. split; [lia | exact Hold].
    + (* a queued entry *)
      destruct (Z.ltb_spec 0 (queue_backend x)); [|lia].
      split; [lia|]. split; [lia|]. split; [lia|].
      split; [now destruct (first_on_queue st)|].
      split; [|split; [lia | exact Hold]].
      intros d Hd. destruct (first_on_queue st) as [d' |] eqn:Ef.
      * apply Hkeep. congruence.
      * injection Hd as <-. exists x.
        split; [apply in_or_app; right; now left | now split].
Qed.

Lemma StronglySorted_before {A : Type} (R : A -> A -> Prop) l1 x l2 :
  StronglySorted R (l1 ++ x :: l2) -> Forall (fun a => R a x) l1.
Proof.
  induction l1 as [| a l1 IH]; simpl; intros H; [constructor|].
  inversion_clear H as [| ? ? Hs Ha]. constructor.
  - rewrite Forall_forall in Ha. apply Ha, in_or_app. right. now left.
  - now apply IH.
Qed.

Lemma qp_result_spans ls r :
  In r (cmd_queue_peaks ls) -> 1 <= span r /\ first_before_last ls r.
Proof.
  intros Hin.
  destruct (qp_loop_counters ls) as (Hs & Hp & Hps & Hsf & Hfirst & _ & Hrec).
  destruct (qp_finish_spec ls)
    as [[E _] | (ls' & ln & Els & Hq & Hgt & E)]; rewrite E in Hin.
  - now apply Hrec.
  - apply in_app_or in Hin as [Hin | [<- | []]]; [now apply Hrec|].
    unfold qp_threshold in Hgt. cbn [span]. split; [lia|].
    destruct (first_on_queue (qp_loop ls)) as [d |] eqn:Ef;
      [|exfalso; apply Hsf; [lia | reflexivity]].
    destruct (Hfirst d eq_refl) as (l & Hl & Hlq & Ha).
    exists ls', ln, [], l. cbn [first last].
    split; [assumption|]. split; [now rewrite <- Els|].
    split; [assumption|]. split; [now rewrite Ha | reflexivity].
Qed.

(** X11: every record returned by [cmd_queue_peaks] has a span of at
    least 1 and a [first] field that is set: it is the accept date of an
    entry with [queue_backend > 0] standing at or before the entry that
    gives [last]; on a chronological log, [first <= last]. *)
Theorem queue_peaks_first_and_span :
  forall (ls : list HaproxyLogLine) (r : peak_info),
    In r (cmd_queue_peaks ls) ->
    1 <= span r
    /\ first_before_last ls r
    /\ (chronological ls -> exists d, first r = Some d /\ d <= last r).
Proof.
  intros ls r Hin. destruct (qp_result_spans ls r Hin) as [Hspan Hfl].
  split; [assumption|]. split; [assumption|].
  intros Hchr. destruct Hfl as (pre & z & post & l & -> & Hl & _ & Hf & Hz).
  exists (accept_date l). split; [assumption|]. rewrite Hz.
  apply in_app_or in Hl as [Hl | [<- | []]]; [|lia].
  apply StronglySorted_before in Hchr. rewrite Forall_forall in Hchr.
  now apply Hchr.
Qed.

Lemma queue_peaks_first_and_span_witness :
  1 <= span (mkPeak 3 2 (Some 1) 3)
  /\ first_before_last (log_of_queues [0; 2; 3; 0]) (mkPeak 3 2 (Some 1) 3)
  /\ exists d, first (mkPeak 3 2 (Some 1) 3) = Some d
               /\ d <= last (mkPeak 3 2 (Some 1) 3).
Proof.
  destruct (queue_peaks_first_and_span
              (log_of_queues [0; 2; 3; 0]) (mkPeak 3 2 (Some 1) 3))
    as (H1 & H2 & H3).
  - vm_compute. now left.
  - split; [exact H1|]. split; [exact H2|]. apply H3.
    unfold chronological. vm_compute.
    repeat constructor; discriminate.
Defined.

(** X12: the spans reported by [cmd_queue_peaks] count no queued entry
    twice: their sum is at most the number of entries with
    [queue_backend > 0], and there are at most as many records as that. *)
Theorem queue_peaks_spans_bounded :
  forall ls : list HaproxyLogLine,
    Z.of_nat (List.length (cmd_queue_peaks ls))
    <= span_total (cmd_queue_peaks ls)
    /\ span_total (cmd_queue_peaks ls) <= queued_entries ls.
Proof.
  intros ls. split.
  - assert (H : forall r, In r (cmd_queue_peaks ls) -> 1 <= span r).
    { intros r Hr. now destruct (qp_result_spans ls r Hr). }
    revert H. unfold span_total.
    induction (cmd_queue_peaks ls) as [| p ps IH]; intros H.
    + simpl. lia.
    + cbn [map fold_right List.length].
      specialize (H p (or_introl eq_refl)) as Hp.
      specialize (IH (fun r Hr => H r (or_intror Hr))). lia.
  - destruct (qp_loop_counters ls) as (Hs & _ & _ & _ & _ & Hsum & _).
    destruct (qp_finish_spec ls) as [[E _] | (ls' & ln & _ & _ & _ & E)];
      rewrite E; [lia|].
    rewrite span_total_snoc. cbn [span]. lia.
Qed.

(** ** commands *)

Lemma prefix_cmd s :
  String.prefix "cmd_" s = true -> s = ("cmd_" ++ slice_from 4 s)%string.
Proof.
  destruct s as [| a [| b [| c [| d s]]]]; cbn [String.prefix slice_from];
    try discriminate;
    repeat (match goal with
            | |- context [ascii_dec ?x ?y] => destruct (ascii_dec x y)
            end; try discriminate).
  intros _. now subst.
Qed.

(** X13: [commands] lists a name exactly when the class has an attribute
    called [cmd_] followed by that name; attributes without the prefix are
    never listed. *)
Theorem commands_lists_cmd_attributes :
  forall (dir_cls : list string) (name : string),
    In name (commands dir_cls) <-> In ("cmd_" ++ name)%string dir_cls.
Proof.
  intros dir_cls name. unfold commands. rewrite in_map_iff. split.
  - intros (cmd & <- & Hin). apply filter_In in Hin as [Hin Hpre].
    now rewrite <- (prefix_cmd cmd Hpre).
  - intros Hin. exists ("cmd_" ++ name)%string. split; [reflexivity|].
    apply filter_In. split; [assumption|].
    cbn [String.append String.prefix].
    repeat (match goal with
            | |- context [ascii_dec ?x ?y] =>
                destruct (ascii_dec x y); [|congruence]
            end).
    now destruct name.
Qed.

Example commands_of_class :
  commands class_attributes
  = ["counter"; "counter_invalid"; "http_methods"; "ip_counter";
     "queue_peaks"; "request_path_counter"; "server_load"; "slow_requests";
     "status_codes_counter"; "top_ips"]%string.
Proof. reflexivity. Qed.

(** ** The time window as constructed *)

(** X14: the time window is an interval: an entry accepted between two
    entries that are in range is in range. *)
Theorem in_time_range_convex :
  forall (self : HaproxyLogFile) (a b c : HaproxyLogLine),
    accept_date a <= accept_date b -> accept_date b <= accept_date c ->
    _is_in_time_range self a = true -> _is_in_time_range self c = true ->
    _is_in_time_range self b = true.
Proof.
  intros self a b c Hab Hbc Ha Hc.
  apply in_time_range_iff in Ha, Hc. apply in_time_range_iff.
  destruct (start_time self) as [s |]; [|exact I].
  destruct (end_time self) as [e |]; lia.
Qed.

Lemma in_time_range_convex_witness :
  _is_in_time_range (__init__ None (Some 10) (Some 5)) (entry 12 0) = true.
Proof.
  apply (in_time_range_convex (__init__ None (Some 10) (Some 5))
           (entry 10 0) (entry 12 0) (entry 15 0));
    [simpl; lia | simpl; lia | reflexivity | reflexivity].
Defined.

(** X15: for an object built by [__init__], an entry is in range exactly
    when [start <= accept_date <= start + delta]; with a start and no
    delta the window has no upper end; without a start every entry is in
    range, a delta given alone being ignored. *)
Theorem in_time_range_of_init :
  forall (logfile_ : option string) (l : HaproxyLogLine),
    (forall s d,
        _is_in_time_range (__init__ logfile_ (Some s) (Some d)) l = true
        <-> s <= accept_date l <= s + d)
    /\ (forall s,
        _is_in_time_range (__init__ logfile_ (Some s) None) l = true
        <-> s <= accept_date l)
    /\ (forall delta_,
        _is_in_time_range (__init__ logfile_ None delta_) l = true).
Proof.
  intros logfile_ l. split; [|split].
  - intros s d. rewrite in_time_range_iff. simpl. tauto.
  - intros s. rewrite in_time_range_iff. simpl. tauto.
  - reflexivity.
Qed.

Section Window_facts.
Variable parse_line : string -> HaproxyLogLine.
Variable strip : string -> string.
Variable open_lines : string -> list string.

#[local] Abbreviation run := (parse_file parse_line strip open_lines).

(** [parse_file] on an object whose log file is configured. *)
Lemma parse_file_closed self path :
  logfile self = Some path ->
  run self
  = (mkFile (Some path) (start_time self) (delta self) (end_time self)
            (total_lines self + Z.of_nat (List.length (open_lines path)))
            (sorted accept_date false
               (_valid_lines self
                ++ in_window_entries parse_line strip self (open_lines path)))
            (_invalid_lines self
             ++ rejected_lines parse_line strip (open_lines path)),
     None).
Proof.
  intros Hlog. unfold parse_file. rewrite Hlog, parse_loop_closed.
  unfold _sort_lines. cbn [logfile start_time delta end_time total_lines
                           _valid_lines _invalid_lines].
  now rewrite Hlog.
Qed.
End Window_facts.

(** X16: with a negative delta the window is empty: [parse_file] retains
    no valid entry at all, while the lines are still counted and the
    malformed ones still recorded. *)
Theorem negative_delta_retains_nothing :
  forall (parse_line : string -> HaproxyLogLine) (strip : string -> string)
         (open_lines : string -> list string) (path : string) (s d : Z),
    d < 0 ->
    let self' := fst (parse_file parse_line strip open_lines
                                 (__init__ (Some path) (Some s) (Some d))) in
    _valid_lines self' = []
    /\ cmd_counter self' = 0
    /\ _invalid_lines self' = rejected_lines parse_line strip (open_lines path)
    /\ total_lines self' = Z.of_nat (List.length (open_lines path)).
Proof.
  intros parse_line strip open_lines path s d Hd self'.
  assert (Hnone : in_window_entries parse_line strip
                    (__init__ (Some path) (Some s) (Some d)) (open_lines path)
                  = []).
  { unfold in_window_entries.
    induction (map (fun ln => parse_line (strip ln)) (open_lines path))
      as [| p ps IH]; [reflexivity|].
    cbn [filter].
    assert (Hout : _is_in_time_range
                     (__init__ (Some path) (Some s) (Some d)) p = false).
    { apply not_true_is_false. rewrite in_time_range_iff. simpl. lia. }
    rewrite Hout, andb_false_r. exact IH. }
  unfold self'. rewrite (parse_file_closed _ _ _ _ path) by reflexivity.
  cbn [fst _valid_lines _invalid_lines total_lines __init__ app].
  unfold cmd_counter. cbn [_valid_lines]. rewrite Hnone.
  repeat split.
Qed.

Lemma negative_delta_retains_nothing_witness :
  _valid_lines
    (fst (parse_file toy_parse toy_strip toy_open
            (__init__ (Some "haproxy.log"%string) (Some 1) (Some (-1)))))
  = [].
Proof.
  apply (negative_delta_retains_nothing toy_parse toy_strip toy_open
           "haproxy.log"%string 1 (-1)).
  lia.
Defined.

(** ** Sorting commutes with selecting *)

Section Sorted_filter.
Context {A : Type}.
Variable key : A -> Z.
Variable reverse : bool.
Variable f : A -> bool.

#[local] Abbreviation ins' := (insert_sorted key reverse).
#[local] Abbreviation srt' := (sorted key reverse).
#[local] Abbreviation bef' := (fun x y => before key reverse x y = true).

Lemma insert_sorted_front x l : Forall (bef' x) l -> ins' x l = x :: l.
Proof.
  destruct l as [| y l]; [reflexivity|].
  intros H. inversion_clear H as [| ? ? Hy _]. simpl. now rewrite Hy.
Qed.

Lemma Forall_filter_keep (P : A -> Prop) l :
  Forall P l -> Forall P (filter f l).
Proof.
  induction 1 as [| y l Hy _ IH]; simpl; [constructor|].
  destruct (f y); [now constructor | assumption].
Qed.

Lemma filter_insert_sorted x l :
  StronglySorted bef' l ->
  filter f (ins' x l) = if f x then ins' x (filter f l) else filter f l.
Proof.
  induction 1 as [| y l Hl IH Hy]; cbn [insert_sorted filter].
  - now destruct (f x).
  - destruct (before key reverse x y) eqn:E; cbn [filter].
    + destruct (f x); [|reflexivity].
      symmetry. apply insert_sorted_front.
      assert (Hall : Forall (bef' x) (y :: l)).
      { constructor; [assumption|]. eapply Forall_impl; [|exact Hy].
        intros z Hz. now apply (before_trans key reverse x y z). }
      apply (Forall_filter_keep _ (y :: l) Hall).
    + rewrite IH. destruct (f x), (f y); cbn [insert_sorted];
        rewrite ?E; reflexivity.
Qed.

(** Selecting from a sorted list gives the sort of the selection. *)
Lemma filter_sorted l : filter f (srt' l) = srt' (filter f l).
Proof.
  induction l as [| x l IH]; [reflexivity|].
  cbn [sorted filter]. rewrite filter_insert_sorted by apply sorted_strongly.
  rewrite IH. now destruct (f x).
Qed.

(** A sorted list is left as it is. *)
Lemma sorted_fixed l : StronglySorted bef' l -> srt' l = l.
Proof.
  induction 1 as [| y l Hl IH Hy]; [reflexivity|].
  cbn [sorted]. rewrite IH. now apply insert_sorted_front.
Qed.
End Sorted_filter.

Lemma filter_andb {A : Type} (f g : A -> bool) l :
  filter (fun x => f x && g x) l = filter g (filter f l).
Proof.
  induction l as [| x l IH]; [reflexivity|].
  cbn [filter]. destruct (f x); cbn [andb filter]; now rewrite IH.
Qed.

(** X17: the window only selects: what [parse_file] retains with a window
    is what it retains without one, restricted to the entries in range
    and in the same order; [total_lines] and [_invalid_lines] do not
    depend on the window. *)
Theorem window_filters_unwindowed_run :
  forall (parse_line : string -> HaproxyLogLine) (strip : string -> string)
         (open_lines : string -> list string)
         (path : string) (start delta_ : option Z),
    let windowed := __init__ (Some path) start delta_ in
    let with_window := fst (parse_file parse_line strip open_lines windowed) in
    let without :=
      fst (parse_file parse_line strip open_lines
                      (__init__ (Some path) None None)) in
    _valid_lines with_window
    = filter (_is_in_time_range windowed) (_valid_lines without)
    /\ _invalid_lines with_window = _invalid_lines without
    /\ total_lines with_window = total_lines without.
Proof.
  intros parse_line strip open_lines path start delta_
         windowed with_window without.
  unfold with_window, without, windowed.
  rewrite !(parse_file_closed _ _ _ _ path) by reflexivity.
  cbn [fst _valid_lines _invalid_lines total_lines __init__ app].
  split; [|split; reflexivity].
  rewrite filter_sorted. f_equal.
  unfold in_window_entries. rewrite filter_andb.
  f_equal. apply filter_ext. intros p.
  now rewrite andb_true_r.
Qed.

(** ** What parse_file retains *)

(** X18: after [parse_file] on a fresh object, every entry of
    [_valid_lines] is a valid parse of a line of the file that lies in the
    time window, and every text in [_invalid_lines] is the stripped form
    of a line of the file that fails to parse. *)
Theorem parse_file_partitions_lines :
  forall (parse_line : string -> HaproxyLogLine) (strip : string -> string)
         (open_lines : string -> list string)
         (path : string) (start delta_ : option Z),
    let self := __init__ (Some path) start delta_ in
    let self' := fst (parse_file parse_line strip open_lines self) in
    (forall p, In p (_valid_lines self') <->
               valid p = true /\ _is_in_time_range self p = true
               /\ exists ln, In ln (open_lines path)
                             /\ p = parse_line (strip ln))
    /\ (forall s, In s (_invalid_lines self') <->
                  valid (parse_line s) = false
                  /\ exists ln, In ln (open_lines path) /\ s = strip ln).
Proof.
  intros parse_line strip open_lines path start delta_ self self'.
  unfold self', self.
  rewrite (parse_file_closed _ _ _ _ path) by reflexivity.
  cbn [fst _valid_lines _invalid_lines __init__ app]. split.
  - intros p. rewrite sorted_In. unfold in_window_entries.
    rewrite filter_In, in_map_iff, andb_true_iff. split.
    + intros [(ln & <- & Hln) [Hv Hr]]. repeat split; try assumption.
      now exists ln.
    + intros (Hv & Hr & ln & Hln & ->). split; [now exists ln | now split].
  - intros s. unfold rejected_lines.
    rewrite filter_In, in_map_iff, negb_true_iff. split.
    + intros [(ln & <- & Hln) Hv]. split; [assumption | now exists ln].
    + intros (Hv & ln & Hln & ->). split; [now exists ln | assumption].
Qed.

(** X19: [parse_file] accumulates: a second call on the same object
    reads the file again, so [total_lines] grows by the number of lines
    once more, the malformed lines are recorded a second time and every
    retained entry is held twice. *)
Theorem parse_file_twice_accumulates :
  forall (parse_line : string -> HaproxyLogLine) (strip : string -> string)
         (open_lines : string -> list string)
         (path : string) (start delta_ : option Z),
    let once := fst (parse_file parse_line strip open_lines
                                (__init__ (Some path) start delta_)) in
    let twice := fst (parse_file parse_line strip open_lines once) in
    total_lines twice = 2 * total_lines once
    /\ _invalid_lines twice = _invalid_lines once ++ _invalid_lines once
    /\ Permutation (_valid_lines twice)
                   (_valid_lines once ++ _valid_lines once)
    /\ cmd_counter twice = 2 * cmd_counter once.
Proof.
  intros parse_line strip open_lines path start delta_ once twice.
  assert (E1 : once = fst (parse_file parse_line strip open_lines
                                      (__init__ (Some path) start delta_)))
    by reflexivity.
  rewrite (parse_file_closed _ _ _ _ path) in E1 by reflexivity.
  cbn [fst _valid_lines _invalid_lines total_lines __init__ app
       start_time delta end_time] in E1.
  assert (E2 : twice = fst (parse_file parse_line strip open_lines once))
    by reflexivity.
  rewrite (parse_file_closed _ _ _ _ path) in E2 by now rewrite E1.
  assert (Ewin : in_window_entries parse_line strip once (open_lines path)
                 = in_window_entries parse_line strip
                     (__init__ (Some path) start delta_) (open_lines path)).
  { apply in_window_entries_ext; now rewrite E1. }
  rewrite Ewin in E2. cbn [fst] in E2.
  assert (Hperm : Permutation (_valid_lines twice)
                    (_valid_lines once ++ _valid_lines once)).
  { rewrite E2. cbn [_valid_lines].
    rewrite <- sorted_perm. apply Permutation_app_head.
    rewrite E1. cbn [_valid_lines]. apply sorted_perm. }
  split; [|split; [|split]].
  - rewrite E2, E1. cbn [total_lines]. lia.
  - rewrite E2. cbn [_invalid_lines]. now rewrite E1.
  - exact Hperm.
  - unfold cmd_counter. rewrite (Permutation_length Hperm), length_app. lia.
Qed.

(** X20: [_sort_lines] leaves a chronological list of valid entries and
    every other attribute as they are, so that applying it a second time
    changes nothing. *)
Theorem sort_lines_idempotent :
  forall self : HaproxyLogFile,
    (chronological (_valid_lines self) -> _sort_lines self = self)
    /\ _sort_lines (_sort_lines self) = _sort_lines self.
Proof.
  assert (Hfix : forall l, chronological l -> sorted accept_date false l = l).
  { intros l Hl. apply sorted_fixed.
    eapply StronglySorted_weaken; [|exact Hl].
    unfold before. intros a b H. cbv beta. lia. }
  intros self. split.
  - intros Hchr. unfold _sort_lines. rewrite (Hfix _ Hchr). now destruct self.
  - unfold _sort_lines at 1.
    cbn [_sort_lines logfile start_time delta end_time total_lines
         _valid_lines _invalid_lines].
    rewrite Hfix; [reflexivity|].
    eapply StronglySorted_weaken; [|apply sorted_strongly].
    unfold before. intros a b H. cbv beta in H. lia.
Qed.

Lemma sort_lines_idempotent_witness :
  _sort_lines (mkFile None None None None 2 [entry 1 0; entry 1 5] [])
  = mkFile None None None None 2 [entry 1 0; entry 1 5] [].
Proof.
  apply (proj1 (sort_lines_idempotent
                  (mkFile None None None None 2 [entry 1 0; entry 1 5] []))).
  unfold chronological. cbn [_valid_lines].
  repeat constructor; simpl; lia.
Defined.

(** X21: the lines that [total_lines] counts beyond the retained and the
    invalid ones are exactly the valid lines outside the time window:
    [total_lines] is [cmd_counter] plus [cmd_counter_invalid] plus the
    number of lines that parse as valid entries out of range. *)
Theorem total_lines_accounting :
  forall (parse_line : string -> HaproxyLogLine) (strip : string -> string)
         (open_lines : string -> list string)
         (path : string) (start delta_ : option Z),
    let self := __init__ (Some path) start delta_ in
    let self' := fst (parse_file parse_line strip open_lines self) in
    let out_of_window :=
      filter (fun p => valid p && negb (_is_in_time_range self p))
             (map (fun ln => parse_line (strip ln)) (open_lines path)) in
    total_lines self'
    = cmd_counter self' + cmd_counter_invalid self'
      + Z.of_nat (List.length out_of_window).
Proof.
  intros parse_line strip open_lines path start delta_ self self' out.
  unfold self', out, cmd_counter, cmd_counter_invalid. clear self' out.
  rewrite (parse_file_closed _ _ _ _ path) by reflexivity.
  cbn [fst _valid_lines _invalid_lines total_lines app].
  change (_valid_lines self) with (@nil HaproxyLogLine).
  change (_invalid_lines self) with (@nil string).
  change (total_lines self) with 0. cbn [app].
  rewrite sorted_length. unfold in_window_entries, rejected_lines.
  induction (open_lines path) as [| ln lines IH]; [reflexivity|].
  cbn [map filter List.length].
  destruct (valid (parse_line (strip ln)));
    [destruct (_is_in_time_range self (parse_line (strip ln)))|];
    cbn [andb negb List.length]; lia.
Qed.

(** ** cmd_queue_peaks: the end of the input closes like an unqueued entry *)

(** A peak above the threshold is open only while the last entry is
    queued. *)
Lemma qp_open_peak_queued ls :
  Forall (fun l => 0 <= queue_backend l) ls ->
  qp_threshold < current_peak (qp_loop ls) -> 0 < queue (qp_loop ls).
Proof.
  intros Hnn Hgt.
  destruct (qp_loop_inv ls) as (_ & _ & Hline & pre & run & Hls & _ & Hnz & _ & Hex).
  specialize (Hex Hgt).
  destruct (exists_last (l := run)) as (run' & l & ->);
    [intros ->; inversion Hex|].
  rewrite app_assoc in Hls.
  destruct (line (qp_loop ls)) as [ln |].
  - destruct Hline as [[ls' Hls'] ->]. rewrite Hls in Hls'.
    apply app_inj_tail in Hls' as [_ <-].
    apply Forall_app in Hnz as [_ Hl]. inversion_clear Hl as [| ? ? Hl' _].
    rewrite Hls in Hnn. apply Forall_app in Hnn as [_ Hl].
    inversion_clear Hl as [| ? ? Hl'' _]. lia.
  - destruct Hline as [-> _]. now destruct (pre ++ run').
Qed.

(** X22: on entries with non-negative queue depths, appending an entry
    that is not queued changes no [peak], [span] or [first] of the result
    and adds no record: a run still open at the end of the input is
    reported as that entry would report it, only its [last] being the
    date of the final entry instead. *)
Theorem queue_peaks_end_closes_run :
  forall (ls : list HaproxyLogLine) (z : HaproxyLogLine),
    Forall (fun l => 0 <= queue_backend l) ls ->
    queue_backend z = 0 ->
    map (fun r => (peak r, span r, first r)) (cmd_queue_peaks (ls ++ [z]))
    = map (fun r => (peak r, span r, first r)) (cmd_queue_peaks ls).
Proof.
  intros ls z Hnn Hz.
  assert (E : cmd_queue_peaks (ls ++ [z]) = peaks (qp_loop (ls ++ [z]))).
  { destruct (qp_finish_spec (ls ++ [z]))
      as [[E _] | (ls' & ln & Hls & Hq & _)]; [exact E|].
    apply app_inj_tail in Hls as [_ <-]. lia. }
  rewrite E, qp_loop_snoc.
  destruct (qp_step_spec (qp_loop ls) z)
    as (_ & _ & [(_ & Hgt & -> & _) | [(_ & Hle & -> & _) | (Hpos & _)]]);
    [| |lia].
  - pose proof (qp_open_peak_queued ls Hnn Hgt) as Hq.
    destruct (qp_finish_spec ls)
      as [[_ [Hq' | Hp']] | (ls' & ln & _ & _ & _ & ->)]; [lia | lia |].
    now rewrite !map_app.
  - specialize (Hle Hz).
    destruct (qp_finish_spec ls)
      as [[-> _] | (ls' & ln & _ & _ & Hgt & _)]; [reflexivity | lia].
Qed.

Lemma queue_peaks_end_closes_run_witness :
  map (fun r => (peak r, span r, first r))
      (cmd_queue_peaks (log_of_queues [0; 2; 3] ++ [entry 9 0]))
  = map (fun r => (peak r, span r, first r))
        (cmd_queue_peaks (log_of_queues [0; 2; 3])).
Proof.
  apply (queue_peaks_end_closes_run (log_of_queues [0; 2; 3]) (entry 9 0)).
  - repeat constructor; simpl; lia.
  - reflexivity.
Defined.

(** ** cmd_top_ips: at most one of the first ten keys is displaced *)

Lemma replace_min_keeps m new l y :
  In y l -> ip_is (ip y) m = false -> In y (replace_min m new l).
Proof.
  induction l as [| x l IH]; simpl; [tauto|].
  intros [-> | Hin] Hy.
  - rewrite Hy. now left.
  - destruct (ip_is (ip x) m); right; [assumption | now apply IH].
Qed.

Lemma ti_loop_keeps rest : forall st y,
  List.length (ips_list st) = 10%nat ->
  In y (ips_list st) -> ip_is (ip y) (min_ip st) = false ->
  In y (ips_list (fold_left ti_step rest st)).
Proof.
  induction rest as [| [k c] rest IH]; intros st y Hlen Hin Hy;
    [exact Hin|].
  cbn [fold_left].
  assert (Hstep : min_ip (ti_step st (k, c)) = min_ip st
                  /\ In y (ips_list (ti_step st (k, c)))).
  { unfold ti_step, ti_threshold. rewrite Hlen.
    change (Z.of_nat 10 <? 10) with false. cbv iota.
    destruct (min_repetitions st <? c); cbn [min_ip ips_list];
      [|now split].
    split; [reflexivity | now apply replace_min_keeps]. }
  destruct Hstep as [Hmin Hin'].
  apply IH; [now apply ti_step_full | assumption | now rewrite Hmin].
Qed.

(** X23: only the candidate tracked as minimum when the list fills up can
    ever be displaced: every other item among the first ten of the
    histogram is returned by [top_ips], whatever keys come later. *)
Theorem top_ips_keeps_untracked_candidates :
  forall (h : ips_dict_t) (e : string * Z),
    In e (firstn 10 h) ->
    ip_is (fst e) (min_ip (ti_loop (firstn 10 h))) = false ->
    In (ip_info_of e) (top_ips_of h).
Proof.
  intros h e Hin Hmin. unfold top_ips_of. apply sorted_In.
  unfold ti_loop in *.
  replace (fold_left ti_step h ti_init)
    with (fold_left ti_step (skipn 10 h)
                    (fold_left ti_step (firstn 10 h) ti_init))
    by now rewrite <- fold_left_app, firstn_skipn.
  destruct (ti_fill (firstn 10 h) ti_init) as (Hlist & _).
  { rewrite length_firstn. cbn [ips_list ti_init List.length]. lia. }
  cbn [ips_list ti_init app] in Hlist.
  destruct (Nat.le_gt_cases 10 (List.length h)) as [Hlong | Hshort].
  - apply ti_loop_keeps.
    + rewrite Hlist, length_map, length_firstn. lia.
    + rewrite Hlist. now apply in_map.
    + exact Hmin.
  - rewrite skipn_all2 by lia. cbn [fold_left].
    rewrite Hlist. now apply in_map.
Qed.

Lemma top_ips_keeps_untracked_candidates_witness :
  In (ip_info_of ("B"%string, 100001)) (top_ips_of hist_busy).
Proof.
  apply (top_ips_keeps_untracked_candidates hist_busy ("B"%string, 100001)).
  - simpl. right. now left.
  - reflexivity.
Defined.
